(** * Dynamical-friction hardening: a shallow embedding of
      [code/evolve_lzk/dynamical_friction.py]

    The module is NumPy code: every argument of [harden] is a Python float,
    a NumPy scalar or a one-dimensional [ndarray]; arithmetic allocates a
    fresh array for every intermediate result, and two statements update an
    intermediate array in place through a boolean mask.  The embedding
    keeps all of that:

    - floating point numbers are an abstract carrier [F] with the
      operations of the numeric library ([NumLib]); the real numbers are
      one instance, used for the properties that are about the mathematics,
      and symbolic expressions are another, on which the module runs;
    - arrays live in a heap and values may alias;
    - computations run in a state-and-exception monad over the heap. *)

From Stdlib Require Import String List Bool Arith Lia ZArith.
From Stdlib Require Import Reals Lra RiemannInt.
Import ListNotations.

Set Implicit Arguments.

(** ** The numeric library *)

(** What the code asks of IEEE doubles, of NumPy's ufuncs and of
    [scipy.special.erf].  Nothing is assumed about the operations: a
    division by zero or the logarithm of a negative number is whatever the
    instance says it is. *)
Class NumLib (F : Type) := {
  lit : Z -> F;                 (* the float literal with that integral value *)
  np_pi : F;                    (* np.pi *)
  fadd : F -> F -> F;
  fsub : F -> F -> F;
  fmul : F -> F -> F;
  fdiv : F -> F -> F;
  fneg : F -> F;
  fltb : F -> F -> bool;        (* x < y *)
  is_zero : F -> bool;          (* x == 0.0, Python's test before a float division *)
  np_sqrt : F -> F;
  np_square : F -> F;
  np_exp : F -> F;
  np_log : F -> F;
  np_fabs : F -> F;
  np_maximum : F -> F -> F;
  sp_erf : F -> F
}.

(** ** Values, heap and exceptions *)

Definition loc := nat.

Inductive value (F : Type) : Type :=
| PyFloat (x : F)      (* a Python float *)
| NpFloat (x : F)      (* a NumPy scalar, np.float64 *)
| NdArray (l : loc).   (* a reference to a one-dimensional ndarray *)

Arguments PyFloat {F} x.
Arguments NpFloat {F} x.
Arguments NdArray {F} l%_nat.

(** Boolean results of comparisons.  Masks are only ever built and consumed
    inside one function body, never mutated, so they are kept as values. *)
Inductive mask : Type :=
| MBool (b : bool)
| MArr (bs : list bool).

Inductive exn : Type := TypeError | ValueError | IndexError | ZeroDivisionError.

Inductive result (A : Type) : Type :=
| Ok (a : A)
| Raise (e : exn).

Arguments Ok {A} a.
Arguments Raise {A} e.

Definition heap (F : Type) : Type := list (list F).

(** A computation reads and writes the heap and returns or raises; what
    was written before an exception stays written. *)
Definition Mon (F A : Type) : Type := heap F -> result A * heap F.

Section Runtime.

Context {F : Type}.

Local Abbreviation heap := (heap F).
Local Abbreviation M := (Mon F).

Definition ret {A} (a : A) : M A := fun h => (Ok a, h).

Definition raise {A} (e : exn) : M A := fun h => (Raise e, h).

Definition bind {A B} (m : M A) (k : A -> M B) : M B :=
  fun h => match m h with
           | (Ok a, h') => k a h'
           | (Raise e, h') => (Raise e, h')
           end.

Definition load (h : heap) (l : loc) : list F := nth l h [].

Fixpoint store (l : loc) (xs : list F) (h : heap) : heap :=
  match h, l with
  | [], _ => []
  | _ :: t, O => xs :: t
  | c :: t, S l' => c :: store l' xs t
  end.

Definition alloc (xs : list F) : M (value F) :=
  fun h => (Ok (NdArray (length h)), h ++ [xs]).

Definition write (l : loc) (xs : list F) : M unit :=
  fun h => (Ok tt, store l xs h).

End Runtime.

Arguments load : simpl never.

Declare Scope monad_scope.
Delimit Scope monad_scope with monad.
Notation "x <- m ;; k" := (bind m (fun x => k))
  (at level 61, m at next level, right associativity) : monad_scope.
Notation "' p <- m ;; k" := (bind m (fun x => let p := x in k))
  (at level 61, p pattern, m at next level, right associativity) : monad_scope.
Open Scope monad_scope.

(** ** NumPy: broadcasting, ufuncs, operators, masked assignment *)

Section NumPy.

Context {F : Type} {NL : NumLib F}.

Local Abbreviation heap := (heap F).
Local Abbreviation M := (Mon F).

Definition zip_with {A B C} (f : A -> B -> C) (xs : list A) (ys : list B) : list C :=
  map (fun p => f (fst p) (snd p)) (combine xs ys).

(** Two one-dimensional shapes broadcast when they are equal or one of them
    is 1. *)
Definition broadcast2 {A B C} (f : A -> B -> C) (xs : list A) (ys : list B)
  : option (list C) :=
  match xs, ys with
  | [x], _ => Some (map (f x) ys)
  | _, [y] => Some (map (fun x => f x y) xs)
  | _, _ => if length xs =? length ys then Some (zip_with f xs ys) else None
  end.

(** What an operator sees of a value: a scalar or the contents of an array. *)
Inductive view : Type :=
| Scalar (x : F)
| Vector (xs : list F).

Definition view_of (h : heap) (v : value F) : view :=
  match v with
  | PyFloat x | NpFloat x => Scalar x
  | NdArray l => Vector (load h l)
  end.

(** A unary ufunc: a NumPy scalar for a scalar, a fresh array for an array. *)
Definition ufunc1 (f : F -> F) (a : value F) : M (value F) :=
  fun h => match view_of h a with
           | Scalar x => (Ok (NpFloat (f x)), h)
           | Vector xs => alloc (map f xs) h
           end.

(** A binary ufunc, also the arithmetic of a NumPy operand with anything. *)
Definition ufunc2 (f : F -> F -> F) (a b : value F) : M (value F) :=
  fun h => match view_of h a, view_of h b with
           | Scalar x, Scalar y => (Ok (NpFloat (f x y)), h)
           | Scalar x, Vector ys => alloc (map (f x) ys) h
           | Vector xs, Scalar y => alloc (map (fun x => f x y) xs) h
           | Vector xs, Vector ys =>
               match broadcast2 f xs ys with
               | Some zs => alloc zs h
               | None => (Raise ValueError, h)
               end
           end.

(** Python's binary operators: two Python floats stay a Python float, and
    [/] between them raises on a zero divisor; everything else is NumPy's. *)
Definition py_add (a b : value F) : M (value F) :=
  match a, b with
  | PyFloat x, PyFloat y => ret (PyFloat (fadd x y))
  | _, _ => ufunc2 fadd a b
  end.

Definition py_sub (a b : value F) : M (value F) :=
  match a, b with
  | PyFloat x, PyFloat y => ret (PyFloat (fsub x y))
  | _, _ => ufunc2 fsub a b
  end.

Definition py_mul (a b : value F) : M (value F) :=
  match a, b with
  | PyFloat x, PyFloat y => ret (PyFloat (fmul x y))
  | _, _ => ufunc2 fmul a b
  end.

Definition py_div (a b : value F) : M (value F) :=
  match a, b with
  | PyFloat x, PyFloat y =>
      if is_zero y then raise ZeroDivisionError else ret (PyFloat (fdiv x y))
  | _, _ => ufunc2 fdiv a b
  end.

Definition py_neg (a : value F) : M (value F) :=
  match a with
  | PyFloat x => ret (PyFloat (fneg x))
  | _ => ufunc1 fneg a
  end.

(** [a < b]: a boolean for two scalars, a boolean array otherwise. *)
Definition py_lt (a b : value F) : M mask :=
  fun h => match view_of h a, view_of h b with
           | Scalar x, Scalar y => (Ok (MBool (fltb x y)), h)
           | Scalar x, Vector ys => (Ok (MArr (map (fltb x) ys)), h)
           | Vector xs, Scalar y => (Ok (MArr (map (fun x => fltb x y) xs)), h)
           | Vector xs, Vector ys =>
               match broadcast2 fltb xs ys with
               | Some bs => (Ok (MArr bs), h)
               | None => (Raise ValueError, h)
               end
           end.

(** [a > b] is [b < a]. *)
Definition py_gt (a b : value F) : M mask := py_lt b a.

(** [p & q] on booleans and boolean arrays. *)
Definition py_and (p q : mask) : M mask :=
  match p, q with
  | MBool b, MBool c => ret (MBool (b && c))
  | MBool b, MArr cs => ret (MArr (map (andb b) cs))
  | MArr bs, MBool c => ret (MArr (map (fun b => b && c) bs))
  | MArr bs, MArr cs =>
      match broadcast2 andb bs cs with
      | Some ds => ret (MArr ds)
      | None => raise ValueError
      end
  end.

(** [a[inds] = c] for a float [c].  Scalars do not support item
    assignment; a boolean array must have the array's length; a single
    boolean selects everything or nothing. *)
Definition setitem (a : value F) (inds : mask) (c : F) : M unit :=
  match a with
  | NdArray l =>
      fun h =>
        let xs := load h l in
        match inds with
        | MBool b => write l (if b then map (fun _ => c) xs else xs) h
        | MArr bs =>
            if length bs =? length xs
            then write l (zip_with (fun (b : bool) x => if b then c else x) bs xs) h
            else (Raise IndexError, h)
        end
  | _ => raise TypeError
  end.

(** [a[inds] /= b[inds]], which Python runs as: read [a[inds]], read
    [b[inds]], divide the first temporary in place, assign it back to
    [a[inds]].  The temporaries are copies and are dropped; only the last
    step touches [a]. *)
Definition idiv_items (a : value F) (inds : mask) (b : value F) : M unit :=
  match a with
  | PyFloat _ => raise TypeError              (* a float is not subscriptable *)
  | NpFloat _ =>
      match inds, b with
      | MArr _, _ => raise IndexError         (* a scalar indexed by an array *)
      | MBool _, PyFloat _ => raise TypeError
      | MBool _, NpFloat _ => raise TypeError (* no item assignment on a scalar *)
      | MBool _, NdArray _ => raise ValueError (* (k,) /= (k,M) does not broadcast *)
      end
  | NdArray l =>
      fun h =>
        let xs := load h l in
        match inds with
        | MArr bs =>
            if length bs =? length xs then
              match b with
              | PyFloat _ => (Raise TypeError, h)
              | NpFloat _ => (Raise IndexError, h)
              | NdArray l2 =>
                  let ys := load h l2 in
                  if length bs =? length ys
                  then write l (zip_with (fun (b : bool) (p : F * F) =>
                                            if b then fdiv (fst p) (snd p) else fst p)
                                         bs (combine xs ys)) h
                  else (Raise IndexError, h)
              end
            else (Raise IndexError, h)
        | MBool c =>
            match b with
            | PyFloat _ => (Raise TypeError, h)
            | NpFloat y =>
                (* a[True] is (1,n) and b[True] is (1,): they broadcast;
                   a[False] is (0,n) and b[False] is (0,): they do not,
                   unless n = 0 *)
                if c then write l (map (fun x => fdiv x y) xs) h
                else match xs with
                     | [] => write l xs h
                     | _ :: _ => (Raise ValueError, h)
                     end
            | NdArray l2 =>
                let ys := load h l2 in
                match ys with
                | [y] => write l (if c then map (fun x => fdiv x y) xs else xs) h
                | _ => if length xs =? length ys
                       then write l (if c then zip_with fdiv xs ys else xs) h
                       else (Raise ValueError, h)
                end
            end
        end
  end.

End NumPy.

Arguments broadcast2 : simpl never.
Arguments zip_with : simpl never.

(** ** The module *)

(** The class attributes of [Dynamical_Friction]. *)
Record config (F : Type) : Type := {
  DF_WHICH_BH : Z;
  COULOMB_LOGARITHM : F;
  DF_ATTENUATED : bool;
  GAS_VEL_SOFT : F;
  MSTAR : F;
  SELF_GRAV_RAD_MULT : F
}.

(** The two flags [harden] reads from [self.sets]. *)
Record settings : Type := {
  VISC_DISK_FLAG : bool;
  SELF_GRAV_RAD : bool
}.

Section DynamicalFriction.

Context {F : Type} {NL : NumLib F}.

Local Abbreviation M := (Mon F).

(** Imported from the package and not part of this file: Newton's constant,
    the solar mass and the conversion of a deceleration into a hardening
    rate and a timescale. *)
Variable NWTG : F.
Variable MSOL : F.
Variable dvdt_to_dadt : value F -> value F -> value F -> M (value F * value F).

(** [_vel_circ], lines 151-156. *)
Definition _vel_circ (m1 m2 sep : value F) : M (value F) :=
  mtot <- py_add m1 m2 ;;
  mrat <- py_div m2 m1 ;;
  t <- py_mul (PyFloat NWTG) mtot ;;
  t <- py_div t sep ;;
  vels <- ufunc1 np_sqrt t ;;
  d <- py_add (PyFloat (lit 1)) mrat ;;
  vels <- py_div vels d ;;
  ret vels.

(** [_dvdt_full], lines 107-121. *)
Definition _dvdt_full (mass_obj rads dens vel_obj vdisp coul : value F) : M (value F) :=
  s2 <- ufunc1 np_sqrt (PyFloat (lit 2)) ;;
  t <- py_mul vdisp s2 ;;
  velf <- py_div vel_obj t ;;
  t <- py_mul (PyFloat (lit (-4))) (PyFloat np_pi) ;;
  g2 <- ufunc1 np_square (PyFloat NWTG) ;;
  const <- py_mul t g2 ;;
  t <- py_mul mass_obj dens ;;
  v2 <- ufunc1 np_square vel_obj ;;
  pref <- py_div t v2 ;;
  e <- ufunc1 sp_erf velf ;;
  t <- py_mul (PyFloat (lit 2)) velf ;;
  sp <- ufunc1 np_sqrt (PyFloat np_pi) ;;
  t <- py_div t sp ;;
  q <- ufunc1 np_square velf ;;
  q <- py_neg q ;;
  q <- ufunc1 np_exp q ;;
  t <- py_mul t q ;;
  t <- py_sub e t ;;
  erfs <- ufunc1 np_fabs t ;;
  t <- py_mul const pref ;;
  t <- py_mul t erfs ;;
  dvdt <- py_mul t coul ;;
  ret dvdt.

(** [_dvdt_attenuated], lines 124-148. *)
Definition _dvdt_attenuated
  (mass_obj rads dens vel_obj vdisp coul rads_hard mstar mass_stars : value F)
  : M (value F) :=
  dvdt_atten <- _dvdt_full mass_obj rads dens vel_obj vdisp coul ;;
  numStars <- py_div mass_stars mstar ;;
  t <- ufunc1 np_log numStars ;;
  t <- py_mul t rads_hard ;;
  atten1 <- py_div t rads ;;
  t <- py_div mass_obj mass_stars ;;
  t <- ufunc1 np_square t ;;
  atten2 <- py_mul t numStars ;;
  lcAtten <- ufunc2 np_maximum atten1 atten2 ;;
  inds <- py_lt rads rads_hard ;;
  _ <- idiv_items dvdt_atten inds lcAtten ;;
  ret dvdt_atten.

(** [harden], lines 64-73: the object mass of the configured policy. *)
Definition harden_mass_obj (self : config F) (m1 m2 : value F) : M (value F) :=
  let which_bh := DF_WHICH_BH self in
  if (which_bh =? 1)%Z then ret m1
  else if (which_bh =? 2)%Z then ret m2
  else if (which_bh =? 0)%Z then py_add m1 m2
  else raise ValueError.

(** [harden], lines 82-89: the gas drag and its cut-off. *)
Definition harden_gas (self : config F) (sets : settings)
  (mass_obj rads dens_gas vcirc vdisp rads_sg coulomb : value F) : M (value F) :=
  gas_vel <- py_mul vdisp (PyFloat (GAS_VEL_SOFT self)) ;;
  dvdt_g <- _dvdt_full mass_obj rads dens_gas vcirc gas_vel coulomb ;;
  _ <- (if VISC_DISK_FLAG sets && SELF_GRAV_RAD sets then
          p <- py_lt rads rads_sg ;;
          q <- py_gt rads_sg (PyFloat (lit 0)) ;;
          inds <- py_and p q ;;
          setitem dvdt_g inds (lit 0)
        else ret tt) ;;
  ret dvdt_g.

(** [harden], lines 91-99: the drag of stars and dark matter. *)
Definition harden_other (self : config F)
  (mass_obj rads dens_stars dens_dm vcirc vdisp coulomb rads_hard mass_stars : value F)
  : M (value F) :=
  dens_other <- py_add dens_stars dens_dm ;;
  if DF_ATTENUATED self then
    mstar <- py_mul (PyFloat (MSTAR self)) (PyFloat MSOL) ;;
    _dvdt_attenuated mass_obj rads dens_other vcirc vdisp coulomb rads_hard mstar mass_stars
  else
    _dvdt_full mass_obj rads dens_other vcirc vdisp coulomb.

(** [Dynamical_Friction.harden], lines 28-104. *)
Definition harden (self : config F) (sets : settings)
  (m1 m2 rads dens_gas dens_stars dens_dm vdisp rads_hard mass_stars rads_sg : value F)
  : M (value F * value F) :=
  mass_obj <- harden_mass_obj self m1 m2 ;;
  let coulomb := PyFloat (COULOMB_LOGARITHM self) in
  vcirc <- _vel_circ m1 m2 rads ;;
  dvdt_g <- harden_gas self sets mass_obj rads dens_gas vcirc vdisp rads_sg coulomb ;;
  dvdt <- harden_other self mass_obj rads dens_stars dens_dm vcirc vdisp coulomb
                       rads_hard mass_stars ;;
  '(dadt, tau) <- dvdt_to_dadt rads vcirc dvdt ;;
  '(dadt_g, tau_g) <- dvdt_to_dadt rads vcirc dvdt_g ;;
  ret (dadt, dadt_g).

End DynamicalFriction.

(** * Reasoning about heaps and computations *)

Section HeapFacts.

Context {F : Type}.

Local Abbreviation heap := (heap F).

(** [h'] still has every array of [h], unchanged. *)
Definition extends (h h' : heap) : Prop :=
  length h <= length h' /\ forall l, l < length h -> load h' l = load h l.

Lemma extends_refl (h : heap) : extends h h.
Proof. split; auto. Qed.

Lemma extends_trans (h1 h2 h3 : heap) :
  extends h1 h2 -> extends h2 h3 -> extends h1 h3.
Proof.
  intros [L1 E1] [L2 E2]. split; [lia|].
  intros l Hl. rewrite E2 by lia. auto.
Qed.

Lemma load_app_old (h k : heap) l : l < length h -> load (h ++ k) l = load h l.
Proof. intros Hl. unfold load. now rewrite app_nth1. Qed.

Lemma load_app_new (h : heap) xs : load (h ++ [xs]) (length h) = xs.
Proof. unfold load. rewrite app_nth2 by lia. now rewrite Nat.sub_diag. Qed.

Lemma extends_app (h : heap) xs : extends h (h ++ [xs]).
Proof.
  split; [rewrite length_app; lia|]. intros l Hl. now apply load_app_old.
Qed.

Lemma length_store l xs (h : heap) : length (store l xs h) = length h.
Proof.
  revert l; induction h as [|c t IH]; intros [|l]; simpl; auto.
Qed.

Lemma load_store_same l xs (h : heap) :
  l < length h -> load (store l xs h) l = xs.
Proof.
  revert l; induction h as [|c t IH]; intros [|l] Hl; simpl in *; try lia; auto.
  apply IH. lia.
Qed.

Lemma load_store_other l l' xs (h : heap) :
  l' <> l -> load (store l xs h) l' = load h l'.
Proof.
  revert l l'; induction h as [|c t IH]; intros [|l] [|l'] Hne; simpl; auto;
    try congruence.
  apply IH. congruence.
Qed.

(** Overwriting an array that [h0] does not have keeps [h0]. *)
Lemma extends_store (h0 h : heap) l xs :
  extends h0 h -> length h0 <= l -> extends h0 (store l xs h).
Proof.
  intros [L E] Hl. split; [now rewrite length_store|].
  intros l' Hl'. rewrite load_store_other by lia. auto.
Qed.

End HeapFacts.

Section ListFacts.

Context {A B C : Type}.

Lemma length_zip_with (f : A -> B -> C) xs ys :
  length xs = length ys -> length (zip_with f xs ys) = length xs.
Proof.
  intros E. unfold zip_with. rewrite length_map, length_combine. lia.
Qed.

Lemma nth_zip_with (f : A -> B -> C) xs ys i dx dy dz :
  length xs = length ys -> i < length xs ->
  nth i (zip_with f xs ys) dz = f (nth i xs dx) (nth i ys dy).
Proof.
  revert ys i; induction xs as [|x xs IH]; intros [|y ys] i E Hi;
    simpl in *; try lia.
  destruct i as [|i]; [reflexivity|].
  apply IH; lia.
Qed.

Lemma broadcast2_same (f : A -> B -> C) xs ys :
  length xs = length ys -> broadcast2 f xs ys = Some (zip_with f xs ys).
Proof.
  intros E. unfold broadcast2.
  destruct xs as [|x [|x' xs]], ys as [|y [|y' ys]]; simpl in *; try lia;
    try reflexivity.
  replace (length xs =? length ys) with true; [reflexivity|].
  symmetry. apply Nat.eqb_eq. lia.
Qed.

End ListFacts.

Lemma nth_map_lt {A B} (f : A -> B) xs i da db :
  i < length xs -> nth i (map f xs) db = f (nth i xs da).
Proof.
  revert i; induction xs as [|x xs IH]; intros [|i] Hi; simpl in *; try lia; auto.
  apply IH. lia.
Qed.

Section Denotation.

Context {F : Type} {NL : NumLib F}.

Local Abbreviation heap := (heap F).
Local Abbreviation M := (Mon F).

Definition is_arr (v : value F) : bool :=
  match v with NdArray _ => true | _ => false end.

Definition is_py (v : value F) : bool :=
  match v with PyFloat _ => true | _ => false end.

(** An array reference is [shaped n] when it is allocated and has [n]
    elements; a scalar broadcasts to any length. *)
Definition shaped (n : nat) (h : heap) (v : value F) : Prop :=
  match v with
  | NdArray l => l < length h /\ length (load h l) = n
  | _ => True
  end.

(** Element [i] of a value, a scalar standing for each of its copies. *)
Definition elt (h : heap) (v : value F) (i : nat) : F :=
  match v with
  | PyFloat x | NpFloat x => x
  | NdArray l => nth i (load h l) (lit 0)
  end.

(** In [h] the value [v] stands for the [n] numbers [P 0 .. P (n-1)]. *)
Definition holds (n : nat) (h : heap) (v : value F) (P : nat -> F) : Prop :=
  shaped n h v /\ forall i, i < n -> elt h v i = P i.

(** [v] was allocated between [h] and [h'], or is a scalar. *)
Definition fresh (h h' : heap) (v : value F) : Prop :=
  match v with
  | NdArray l => length h <= l < length h'
  | _ => True
  end.

Definition mask_at (m : mask) (i : nat) : bool :=
  match m with
  | MBool b => b
  | MArr bs => nth i bs false
  end.

Definition mask_holds (n : nat) (m : mask) (B : nat -> bool) : Prop :=
  match m with MArr bs => length bs = n | MBool _ => True end /\
  forall i, i < n -> mask_at m i = B i.

(** [m] returns from [h] without raising, keeps every array of [h], and
    the result and final heap satisfy [Q]. *)
Definition runs {A} (m : M A) (h : heap) (R : A -> heap -> Prop) : Prop :=
  exists a h', m h = (Ok a, h') /\ R a h'.

Definition yields {A} (m : M A) (h : heap) (Q : A -> heap -> Prop) : Prop :=
  runs m h (fun a h' => extends h h' /\ Q a h').

(** What a NumPy operation promises about its result [v] in [h']. *)
Definition result_is (n : nat) (h : heap) (P : nat -> F) (arr py : bool)
  (v : value F) (h' : heap) : Prop :=
  fresh h h' v /\ holds n h' v P /\ is_arr v = arr /\ is_py v = py.

Lemma holds_extends n h h' v P :
  extends h h' -> holds n h v P -> holds n h' v P.
Proof.
  intros [L E] [S V]. destruct v as [x|x|l]; simpl in *.
  - split; auto.
  - split; auto.
  - destruct S as [Hl Hn]. split.
    + split; [lia|]. rewrite E; assumption.
    + intros i Hi. simpl. rewrite E by assumption. auto.
Qed.


Lemma holds_self n h v : shaped n h v -> holds n h v (elt h v).
Proof. intros S. split; auto. Qed.

Lemma holds_py n h x : holds n h (PyFloat x) (fun _ => x).
Proof. split; simpl; auto. Qed.

Lemma holds_np n h x : holds n h (NpFloat x) (fun _ => x).
Proof. split; simpl; auto. Qed.

Lemma fresh_mono h0 h h' v : extends h0 h -> fresh h h' v -> fresh h0 h' v.
Proof. intros [L _]. destruct v; simpl; auto. lia. Qed.

Lemma fresh_grow h0 h h' v : extends h h' -> fresh h0 h v -> fresh h0 h' v.
Proof. intros [L _]. destruct v; simpl; auto. lia. Qed.


Lemma yields_ret {A} (a : A) h (Q : A -> heap -> Prop) :
  Q a h -> yields (ret a) h Q.
Proof. intros H. exists a, h. split; [reflexivity|]. split; [apply extends_refl|auto]. Qed.


Lemma runs_bind {A B} (m : M A) (k : A -> M B) h
  (Q : A -> heap -> Prop) (R : B -> heap -> Prop) :
  runs m h Q -> (forall a h', Q a h' -> runs (k a) h' R) -> runs (bind m k) h R.
Proof.
  intros (a & h' & E & HQ) K.
  destruct (K a h' HQ) as (b & h'' & E' & HR).
  exists b, h''. unfold bind. rewrite E. auto.
Qed.

Lemma runs_step {A B} (m : M A) (k : A -> M B) h a h' (R : B -> heap -> Prop) :
  m h = (Ok a, h') -> runs (k a) h' R -> runs (bind m k) h R.
Proof.
  intros E (b & h'' & E' & HR). exists b, h''. unfold bind. rewrite E. auto.
Qed.

Lemma runs_of_yields {A} (m : M A) h (Q R : A -> heap -> Prop) :
  yields m h Q -> (forall a h', extends h h' -> Q a h' -> R a h') -> runs m h R.
Proof.
  intros (a & h' & E & X & HQ) W. exists a, h'. auto.
Qed.

Lemma runs_ret {A} (a : A) h (R : A -> heap -> Prop) : R a h -> runs (ret a) h R.
Proof. intros H. exists a, h. auto. Qed.

Lemma yields_weaken {A} (m : M A) h (Q R : A -> heap -> Prop) :
  yields m h Q -> (forall a h', extends h h' -> Q a h' -> R a h') -> yields m h R.
Proof.
  intros (a & h' & E & X & HQ) W. exists a, h'. auto.
Qed.

Lemma yields_run {A} (m m' : M A) h (Q : A -> heap -> Prop) :
  m h = m' h -> yields m' h Q -> yields m h Q.
Proof. intros E (a & h' & E' & X). exists a, h'. rewrite E. auto. Qed.

(** *** The primitive operations *)

Lemma alloc_result n h xs P :
  length xs = n -> (forall i, i < n -> nth i xs (lit 0) = P i) ->
  yields (alloc xs) h (result_is n h P true false).
Proof.
  intros L V. exists (NdArray (length h)), (h ++ [xs]).
  split; [reflexivity|]. split; [apply extends_app|].
  unfold result_is, fresh, holds, shaped, elt.
  rewrite load_app_new, length_app. simpl.
  repeat split; auto; lia.
Qed.

Lemma ufunc1_spec (f : F -> F) n h a Pa :
  holds n h a Pa ->
  yields (ufunc1 f a) h
    (result_is n h (fun i => f (Pa i)) (is_arr a) false).
Proof.
  intros [S V]. unfold ufunc1. destruct a as [x|x|l]; simpl in *.
  - exists (NpFloat (f x)), h. split; [reflexivity|]. split; [apply extends_refl|].
    repeat split; simpl; auto. intros i Hi. now rewrite <- V.
  - exists (NpFloat (f x)), h. split; [reflexivity|]. split; [apply extends_refl|].
    repeat split; simpl; auto. intros i Hi. now rewrite <- V.
  - destruct S as [Hl Hn]. apply alloc_result.
    + now rewrite length_map.
    + intros i Hi. rewrite nth_map_lt with (da := lit 0) by lia. now rewrite V.
Qed.

Lemma ufunc2_spec (f : F -> F -> F) n h a b Pa Pb :
  holds n h a Pa -> holds n h b Pb ->
  yields (ufunc2 f a b) h
    (result_is n h (fun i => f (Pa i) (Pb i)) (is_arr a || is_arr b) false).
Proof.
  intros [Sa Va] [Sb Vb]. unfold ufunc2.
  destruct a as [x|x|la], b as [y|y|lb]; simpl in *;
    try (exists (NpFloat (f x y)), h; split; [reflexivity|];
         split; [apply extends_refl|];
         repeat split; simpl; auto; intros i Hi;
         now rewrite <- Va, <- Vb by assumption).
  - destruct Sb as [Hl Hn]. apply alloc_result; [now rewrite length_map|].
    intros i Hi. rewrite nth_map_lt with (da := lit 0) by lia.
    now rewrite Vb, <- Va by assumption.
  - destruct Sb as [Hl Hn]. apply alloc_result; [now rewrite length_map|].
    intros i Hi. rewrite nth_map_lt with (da := lit 0) by lia.
    now rewrite Vb, <- Va by assumption.
  - destruct Sa as [Hl Hn]. apply alloc_result; [now rewrite length_map|].
    intros i Hi. rewrite nth_map_lt with (da := lit 0) by lia.
    now rewrite Va, <- Vb by assumption.
  - destruct Sa as [Hl Hn]. apply alloc_result; [now rewrite length_map|].
    intros i Hi. rewrite nth_map_lt with (da := lit 0) by lia.
    now rewrite Va, <- Vb by assumption.
  - destruct Sa as [Hla Hna], Sb as [Hlb Hnb].
    apply yields_run with (m' := alloc (zip_with f (load h la) (load h lb))).
    { now rewrite broadcast2_same by congruence. }
    apply alloc_result; [rewrite length_zip_with; congruence|].
    intros i Hi.
    rewrite nth_zip_with with (dx := lit 0) (dy := lit 0) by congruence.
    now rewrite Va, Vb.
Qed.



Lemma ufunc2_py_spec (f : F -> F -> F) n h a b Pa Pb :
  holds n h a Pa -> holds n h b Pb -> is_py a && is_py b = false ->
  yields (ufunc2 f a b) h
    (result_is n h (fun i => f (Pa i) (Pb i)) (is_arr a || is_arr b)
       (is_py a && is_py b)).
Proof.
  intros Ha Hb E. rewrite E. now apply ufunc2_spec.
Qed.

(** A Python operator that cannot raise: [+], [-], [*]. *)
Lemma py_arith_spec (f : F -> F -> F) (op : value F -> value F -> M (value F)) :
  (forall a b,
     op a b = match a, b with
              | PyFloat x, PyFloat y => ret (PyFloat (f x y))
              | _, _ => ufunc2 f a b
              end) ->
  forall n h a b Pa Pb,
  holds n h a Pa -> holds n h b Pb ->
  yields (op a b) h
    (result_is n h (fun i => f (Pa i) (Pb i)) (is_arr a || is_arr b)
       (is_py a && is_py b)).
Proof.
  intros Hop n h a b Pa Pb Ha Hb. rewrite Hop.
  destruct a as [x|x|la], b as [y|y|lb];
    try (apply ufunc2_py_spec; auto; reflexivity).
  destruct Ha as [_ Va], Hb as [_ Vb]. simpl in *.
  apply yields_ret. repeat split; simpl; auto.
  intros i Hi. now rewrite <- Va, <- Vb.
Qed.

Lemma py_add_spec n h a b Pa Pb :
  holds n h a Pa -> holds n h b Pb ->
  yields (py_add a b) h
    (result_is n h (fun i => fadd (Pa i) (Pb i)) (is_arr a || is_arr b)
       (is_py a && is_py b)).
Proof. apply py_arith_spec. intros [] []; reflexivity. Qed.

Lemma py_sub_spec n h a b Pa Pb :
  holds n h a Pa -> holds n h b Pb ->
  yields (py_sub a b) h
    (result_is n h (fun i => fsub (Pa i) (Pb i)) (is_arr a || is_arr b)
       (is_py a && is_py b)).
Proof. apply py_arith_spec. intros [] []; reflexivity. Qed.

Lemma py_mul_spec n h a b Pa Pb :
  holds n h a Pa -> holds n h b Pb ->
  yields (py_mul a b) h
    (result_is n h (fun i => fmul (Pa i) (Pb i)) (is_arr a || is_arr b)
       (is_py a && is_py b)).
Proof. apply py_arith_spec. intros [] []; reflexivity. Qed.

(** [/] is NumPy's, and cannot raise, unless both operands are Python
    floats; then the divisor must not be zero. *)
Definition nonzero_py (b : value F) : Prop :=
  match b with PyFloat y => is_zero y = false | _ => True end.

Lemma not_py_nonzero b : is_py b = false -> nonzero_py b.
Proof. destruct b; simpl; auto. discriminate. Qed.

Lemma py_div_spec n h a b Pa Pb :
  holds n h a Pa -> holds n h b Pb -> (is_py a = true -> nonzero_py b) ->
  yields (py_div a b) h
    (result_is n h (fun i => fdiv (Pa i) (Pb i)) (is_arr a || is_arr b)
       (is_py a && is_py b)).
Proof.
  intros Ha Hb E.
  destruct a as [x|x|la], b as [y|y|lb];
    try (apply ufunc2_py_spec; auto; reflexivity).
  simpl in E. unfold py_div. rewrite (E eq_refl).
  destruct Ha as [_ Va], Hb as [_ Vb]. simpl in *.
  apply yields_ret. repeat split; simpl; auto.
  intros i Hi. now rewrite <- Va, <- Vb.
Qed.

Lemma py_neg_spec n h a Pa :
  holds n h a Pa ->
  yields (py_neg a) h
    (result_is n h (fun i => fneg (Pa i)) (is_arr a) (is_py a)).
Proof.
  intros Ha. destruct a as [x|x|la]; try (now apply ufunc1_spec).
  destruct Ha as [_ Va]. simpl in *.
  apply yields_ret. repeat split; simpl; auto.
  intros i Hi. now rewrite <- Va.
Qed.

(** *** Masks *)

Definition is_marr (m : mask) : bool :=
  match m with MArr _ => true | MBool _ => false end.

Lemma py_lt_spec n h a b Pa Pb :
  holds n h a Pa -> holds n h b Pb ->
  exists m, py_lt a b h = (Ok m, h) /\
            mask_holds n m (fun i => fltb (Pa i) (Pb i)) /\
            is_marr m = is_arr a || is_arr b.
Proof.
  intros [Sa Va] [Sb Vb]. unfold py_lt.
  assert (SS : forall x y, (forall i, i < n -> x = Pa i) ->
               (forall i, i < n -> y = Pb i) ->
               mask_holds n (MBool (fltb x y)) (fun i => fltb (Pa i) (Pb i))).
  { intros x y Hx Hy. split; [exact I|]. intros i Hi. simpl.
    now rewrite <- Hx, <- Hy. }
  assert (SV : forall x l, (forall i, i < n -> x = Pa i) -> shaped n h (NdArray l) ->
               (forall i, i < n -> nth i (load h l) (lit 0) = Pb i) ->
               mask_holds n (MArr (map (fltb x) (load h l)))
                 (fun i => fltb (Pa i) (Pb i))).
  { intros x l Hx [_ Hn] Hy. split; [now rewrite length_map|].
    intros i Hi. simpl. rewrite nth_map_lt with (da := lit 0) by lia.
    now rewrite Hy, <- Hx. }
  assert (VS : forall l y, shaped n h (NdArray l) ->
               (forall i, i < n -> nth i (load h l) (lit 0) = Pa i) ->
               (forall i, i < n -> y = Pb i) ->
               mask_holds n (MArr (map (fun x => fltb x y) (load h l)))
                 (fun i => fltb (Pa i) (Pb i))).
  { intros l y [_ Hn] Hx Hy. split; [now rewrite length_map|].
    intros i Hi. simpl. rewrite nth_map_lt with (da := lit 0) by lia.
    now rewrite Hx, <- Hy. }
  destruct a as [x|x|la], b as [y|y|lb]; simpl in *;
    try (eexists; split; [reflexivity|]; split; [|reflexivity];
         first [ now apply SS | now apply SV | now apply VS ]).
  destruct Sa as [Hla Hna], Sb as [Hlb Hnb].
  rewrite broadcast2_same by congruence.
  eexists; split; [reflexivity|]; split; [|reflexivity].
  split; [rewrite length_zip_with; congruence|]. intros i Hi; simpl.
  rewrite nth_zip_with with (dx := lit 0) (dy := lit 0) by congruence.
  now rewrite Va, Vb.
Qed.

Lemma py_and_spec n (h : heap) p q Bp Bq :
  mask_holds n p Bp -> mask_holds n q Bq ->
  exists m, py_and p q h = (Ok m, h) /\
            mask_holds n m (fun i => Bp i && Bq i) /\
            is_marr m = is_marr p || is_marr q.
Proof.
  intros [Sp Vp] [Sq Vq].
  destruct p as [b|bs], q as [c|cs]; simpl in *.
  - eexists; split; [reflexivity|]; split; [|reflexivity]. split; [exact I|].
    intros i Hi; simpl. now rewrite <- Vp, <- Vq.
  - eexists; split; [reflexivity|]; split; [|reflexivity].
    split; [now rewrite length_map|]. intros i Hi; simpl.
    rewrite nth_map_lt with (da := false) by lia.
    now rewrite Vq, <- Vp by assumption.
  - eexists; split; [reflexivity|]; split; [|reflexivity].
    split; [now rewrite length_map|]. intros i Hi; simpl.
    rewrite nth_map_lt with (da := false) by lia.
    now rewrite Vp, <- Vq by assumption.
  - unfold py_and. rewrite broadcast2_same by congruence.
    eexists; split; [reflexivity|]; split; [|reflexivity].
    split; [rewrite length_zip_with; congruence|]. intros i Hi; simpl.
    rewrite nth_zip_with with (dx := false) (dy := false) by congruence.
    now rewrite Vp, Vq.
Qed.

End Denotation.

Arguments fresh_mono {F} [h0 h h' v] _ _.
Arguments fresh_grow {F} [h0 h h' v] _ _.
Arguments holds_extends {F NL} [n h h' v P] _ _.
Arguments holds_self {F NL} [n h v] _.

Section MaskedUpdates.

Context {F : Type} {NL : NumLib F}.

Local Abbreviation heap := (heap F).

Lemma setitem_spec n (h : heap) l m c B :
  length (load h l) = n -> mask_holds n m B ->
  exists xs, setitem (NdArray l) m c h = (Ok tt, store l xs h) /\
             length xs = n /\
             forall i, i < n ->
               nth i xs (lit 0) = if B i then c else nth i (load h l) (lit 0).
Proof.
  intros Hn [Sm Vm]. unfold setitem, write.
  destruct m as [b|bs]; simpl in *.
  - eexists; split; [reflexivity|]. destruct b.
    + split; [now rewrite length_map|]. intros i Hi.
      rewrite nth_map_lt with (da := lit 0) by lia.
      now rewrite <- Vm.
    + split; [assumption|]. intros i Hi. now rewrite <- Vm.
  - replace (length bs =? length (load h l)) with true
      by (symmetry; apply Nat.eqb_eq; congruence).
    eexists; split; [reflexivity|].
    split; [rewrite length_zip_with; congruence|]. intros i Hi.
    rewrite nth_zip_with with (dx := false) (dy := lit 0) by congruence.
    now rewrite Vm.
Qed.

(** A scalar mask next to a scalar divisor has to be true, unless the array
    is empty: the blocks [a[False]] and [b[False]] do not broadcast. *)
Lemma idiv_items_spec n (h : heap) l m b B Pb :
  length (load h l) = n -> mask_holds n m B -> holds n h b Pb ->
  is_py b = false -> (is_marr m = true -> is_arr b = true) ->
  (is_marr m = false -> is_arr b = false -> forall i, i < n -> B i = true) ->
  exists xs, idiv_items (NdArray l) m b h = (Ok tt, store l xs h) /\
             length xs = n /\
             forall i, i < n ->
               nth i xs (lit 0) =
               if B i then fdiv (nth i (load h l) (lit 0)) (Pb i)
               else nth i (load h l) (lit 0).
Proof.
  intros Hn [Sm Vm] [Sb Vb] Hpy Harr Hsc. unfold idiv_items, write.
  destruct m as [c|bs]; simpl in *.
  - destruct b as [y|y|l2]; simpl in *; [discriminate| |].
    + specialize (Hsc eq_refl eq_refl). destruct c.
      * eexists; split; [reflexivity|].
        split; [now rewrite length_map|]. intros i Hi.
        rewrite nth_map_lt with (da := lit 0) by lia.
        now rewrite <- Vm, <- Vb by assumption.
      * destruct (load h l) as [|x xs] eqn:Exs; simpl in Hn.
        -- eexists; split; [reflexivity|]. split; [assumption|].
           intros i Hi. lia.
        -- assert (Hi : 0 < n) by lia.
           specialize (Vm 0 Hi). specialize (Hsc 0 Hi). congruence.
    + destruct Sb as [Hl2 Hn2].
      assert (Hsame : length (load h l) = length (load h l2)) by congruence.
      destruct (load h l2) as [|y [|y' ys]] eqn:Eys.
      * rewrite Hsame. simpl. eexists; split; [reflexivity|]. destruct c.
        -- split; [rewrite length_zip_with; simpl in *; congruence|].
           intros i Hi. simpl in *. lia.
        -- split; [assumption|]. intros i Hi. now rewrite <- Vm.
      * eexists; split; [reflexivity|]. destruct c.
        -- split; [now rewrite length_map|]. intros i Hi.
           rewrite nth_map_lt with (da := lit 0) by lia.
           rewrite <- Vm, <- Vb by assumption.
           simpl in Hn2. subst n. destruct i; [reflexivity|lia].
        -- split; [assumption|]. intros i Hi. now rewrite <- Vm.
      * replace (length (load h l) =? length (y :: y' :: ys)) with true
          by (symmetry; apply Nat.eqb_eq; congruence).
        eexists; split; [reflexivity|]. destruct c.
        -- split; [rewrite length_zip_with; congruence|]. intros i Hi.
           rewrite nth_zip_with with (dx := lit 0) (dy := lit 0) by congruence.
           now rewrite <- Vm, <- Vb by assumption.
        -- split; [assumption|]. intros i Hi. now rewrite <- Vm.
  - specialize (Harr eq_refl). destruct b as [y|y|l2]; simpl in *; try discriminate.
    destruct Sb as [Hl2 Hn2].
    replace (length bs =? length (load h l)) with true
      by (symmetry; apply Nat.eqb_eq; congruence).
    replace (length bs =? length (load h l2)) with true
      by (symmetry; apply Nat.eqb_eq; congruence).
    eexists; split; [reflexivity|].
    split; [rewrite length_zip_with; rewrite ?length_combine; lia|].
    intros i Hi.
    rewrite nth_zip_with with (dx := false) (dy := (lit 0, lit 0))
      by (rewrite ?length_combine; lia).
    rewrite combine_nth by congruence. simpl.
    now rewrite Vm, Vb.
Qed.

End MaskedUpdates.

Arguments setitem_spec {F NL} [n h] l [m] c [B] _ _.
Arguments idiv_items_spec {F NL} [n h] l [m b B Pb] _ _ _ _ _ _.

(** * What the functions compute, element by element *)

Section Elementwise.

Context {F : Type} {NL : NumLib F}.

Variable NWTG : F.

(** One element of [_vel_circ]. *)
Definition vel_circ_elt (m1 m2 sep : F) : F :=
  let mtot := fadd m1 m2 in
  let mrat := fdiv m2 m1 in
  let vels := np_sqrt (fdiv (fmul NWTG mtot) sep) in
  fdiv vels (fadd (lit 1) mrat).

(** One element of [_dvdt_full]. *)
Definition dvdt_full_elt (mass_obj dens vel_obj vdisp coul : F) : F :=
  let velf := fdiv vel_obj (fmul vdisp (np_sqrt (lit 2))) in
  let const := fmul (fmul (lit (-4)) np_pi) (np_square NWTG) in
  let pref := fdiv (fmul mass_obj dens) (np_square vel_obj) in
  let erfs :=
    np_fabs (fsub (sp_erf velf)
                  (fmul (fdiv (fmul (lit 2) velf) (np_sqrt np_pi))
                        (np_exp (fneg (np_square velf))))) in
  fmul (fmul (fmul const pref) erfs) coul.

(** One element of the attenuation factor [lcAtten]. *)
Definition lc_atten_elt (mass_obj rads rads_hard mstar mass_stars : F) : F :=
  let numStars := fdiv mass_stars mstar in
  let atten1 := fdiv (fmul (np_log numStars) rads_hard) rads in
  let atten2 := fmul (np_square (fdiv mass_obj mass_stars)) numStars in
  np_maximum atten1 atten2.

(** One element of [_dvdt_attenuated]. *)
Definition dvdt_attenuated_elt
  (mass_obj rads dens vel_obj vdisp coul rads_hard mstar mass_stars : F) : F :=
  let full := dvdt_full_elt mass_obj dens vel_obj vdisp coul in
  if fltb rads rads_hard
  then fdiv full (lc_atten_elt mass_obj rads rads_hard mstar mass_stars)
  else full.

End Elementwise.

Ltac solve_holds :=
  first [ eassumption | apply holds_py | apply holds_np ].

Ltac rewrite_flags :=
  repeat match goal with
         | H : is_arr ?v = _ |- context [is_arr ?v] => rewrite H
         | H : is_py ?v = _ |- context [is_py ?v] => rewrite H
         end.

Ltac flags :=
  rewrite_flags; simpl;
  repeat match goal with
         | H : (_ && _)%bool = _ |- _ => revert H
         | H : (_ || _)%bool = _ |- _ => revert H
         end;
  repeat match goal with
         | |- context [is_py ?v] => destruct (is_py v)
         | |- context [is_arr ?v] => destruct (is_arr v)
         end;
  simpl; intros; first [ reflexivity | congruence ].

(** After a step from the current heap to [h'], move what is known about
    the values to [h']. *)
Ltac advance Base X :=
  repeat match goal with
         | H : holds _ ?h _ _ |- _ =>
             match type of X with extends h _ => apply (holds_extends X) in H end
         | H : fresh _ ?h _ |- _ =>
             match type of X with extends h _ => apply (fresh_grow X) in H end
         end;
  repeat match goal with
         | H : fresh ?h _ _ |- _ =>
             match type of X with extends h _ => apply (fresh_mono Base) in H end
         end;
  apply (extends_trans Base) in X; clear Base; rename X into Base.

Ltac div_side :=
  first [ assumption
        | intros _; apply not_py_nonzero; flags
        | let E := fresh in intro E; exfalso; revert E; flags
        | let E := fresh in
          intro E;
          match goal with
          | H : _ -> nonzero_py ?b |- nonzero_py ?b => apply H; revert E; flags
          end ].

Ltac step Base lem :=
  eapply runs_bind;
  [ match goal with
    | H : holds ?n _ _ _ |- _ => eapply lem with (n := n)
    end; first [ solve_holds | flags | div_side ]
  | let v := fresh "v" in
    let h' := fresh "h" in
    let X := fresh "X" in
    let Fr := fresh "Fr" in
    let Hv := fresh "Hv" in
    let Ia := fresh "Ia" in
    let Ip := fresh "Ip" in
    intros v h' (X & Fr & Hv & Ia & Ip); advance Base X ].

Ltac finish Hv :=
  apply runs_ret; split; [ assumption | ];
  split; [ assumption | split; [ exact Hv | split; flags ] ].

Section FunctionSpecs.

Context {F : Type} {NL : NumLib F}.

Local Abbreviation heap := (heap F).

Variable NWTG : F.

Lemma vel_circ_spec n (h : heap) m1 m2 sep P1 P2 Ps :
  holds n h m1 P1 -> holds n h m2 P2 -> holds n h sep Ps ->
  (is_py m2 = true -> nonzero_py m1) ->
  (is_py m1 && is_py m2 = true -> nonzero_py sep) ->
  yields (_vel_circ NWTG m1 m2 sep) h
    (result_is n h (fun i => vel_circ_elt NWTG (P1 i) (P2 i) (Ps i))
       (is_arr m1 || is_arr m2 || is_arr sep) false).
Proof.
  intros H1 H2 Hs Hpy1 Hpy2. unfold yields, _vel_circ.
  pose proof (extends_refl h) as Base.
  step Base py_add_spec.
  step Base py_div_spec.
  step Base py_mul_spec.
  step Base py_div_spec.
  step Base ufunc1_spec.
  step Base py_add_spec.
  step Base py_div_spec.
  finish Hv5.
Qed.

Lemma dvdt_full_spec n (h : heap) mass_obj rads dens vel_obj vdisp coul Pm Pd Pv Ps Pc :
  holds n h mass_obj Pm -> holds n h dens Pd -> holds n h vel_obj Pv ->
  holds n h vdisp Ps -> holds n h coul Pc ->
  yields (_dvdt_full NWTG mass_obj rads dens vel_obj vdisp coul) h
    (result_is n h
       (fun i => dvdt_full_elt NWTG (Pm i) (Pd i) (Pv i) (Ps i) (Pc i))
       (is_arr mass_obj || is_arr dens || is_arr vel_obj || is_arr vdisp || is_arr coul)
       false).
Proof.
  intros Hm Hd Hvel Hs Hc. unfold yields, _dvdt_full.
  pose proof (extends_refl h) as Base.
  step Base ufunc1_spec.
  step Base py_mul_spec.
  step Base py_div_spec.
  step Base py_mul_spec.
  step Base ufunc1_spec.
  step Base py_mul_spec.
  step Base py_mul_spec.
  step Base ufunc1_spec.
  step Base py_div_spec.
  step Base ufunc1_spec.
  step Base py_mul_spec.
  step Base ufunc1_spec.
  step Base py_div_spec.
  step Base ufunc1_spec.
  step Base py_neg_spec.
  step Base ufunc1_spec.
  step Base py_mul_spec.
  step Base py_sub_spec.
  step Base ufunc1_spec.
  step Base py_mul_spec.
  step Base py_mul_spec.
  step Base py_mul_spec.
  finish Hv20.
Qed.

(** Line 146, [dvdt_atten[inds] /= lcAtten[inds]], under a scalar mask.
    The mask [rads < rads_hard] is a scalar when both radii are, and the
    factor [lcAtten] is a scalar when the three masses are scalars as
    well.  A scalar mask adds an axis: under [False] the two blocks have
    the shapes (0,n) and (0,), which broadcast for [n = 0] only.  So the
    line needs an array among the five, or a mask that is true. *)
Definition mask_broadcasts (n : nat) (h : heap)
  (mass_obj rads rads_hard mstar mass_stars : value F) : Prop :=
  is_arr rads || is_arr rads_hard || is_arr mass_obj || is_arr mstar
  || is_arr mass_stars = true \/
  forall i, i < n -> fltb (elt h rads i) (elt h rads_hard i) = true.

Lemma mask_broadcasts_scalars n h mass_obj rads rads_hard mstar mass_stars :
  mask_broadcasts n h mass_obj rads rads_hard mstar mass_stars ->
  is_arr rads || is_arr rads_hard || is_arr mass_obj || is_arr mstar
  || is_arr mass_stars = false ->
  forall i, i < n -> fltb (elt h rads i) (elt h rads_hard i) = true.
Proof. intros [E|H] E'; [congruence|exact H]. Qed.

Lemma dvdt_attenuated_spec n (h : heap)
  mass_obj rads dens vel_obj vdisp coul rads_hard mstar mass_stars
  Pm Pr Pd Pv Ps Pc Ph Pms Pst :
  holds n h mass_obj Pm -> holds n h rads Pr -> holds n h dens Pd ->
  holds n h vel_obj Pv -> holds n h vdisp Ps -> holds n h coul Pc ->
  holds n h rads_hard Ph -> holds n h mstar Pms -> holds n h mass_stars Pst ->
  is_py mass_stars = false ->
  is_arr mass_obj || is_arr dens || is_arr vel_obj || is_arr vdisp || is_arr coul
    = true ->
  (is_arr rads || is_arr rads_hard || is_arr mass_obj || is_arr mstar
   || is_arr mass_stars = false ->
   forall i, i < n -> fltb (Pr i) (Ph i) = true) ->
  yields (_dvdt_attenuated NWTG mass_obj rads dens vel_obj vdisp coul
            rads_hard mstar mass_stars) h
    (result_is n h
       (fun i => dvdt_attenuated_elt NWTG (Pm i) (Pr i) (Pd i) (Pv i) (Ps i)
                   (Pc i) (Ph i) (Pms i) (Pst i))
       true false).
Proof.
  intros Hm Hr Hd Hvel Hs Hc Hh Hms Hst Hpy Harr Hsc.
  unfold yields, _dvdt_attenuated.
  pose proof (extends_refl h) as Base.
  step Base dvdt_full_spec.
  step Base py_div_spec.
  step Base ufunc1_spec.
  step Base py_mul_spec.
  step Base py_div_spec.
  step Base py_div_spec.
  step Base ufunc1_spec.
  step Base py_mul_spec.
  step Base ufunc2_spec.
  destruct (py_lt_spec Hr Hh) as (m & Em & Hmask & Im).
  eapply runs_step; [exact Em|].
  assert (Iv : is_arr v = true) by flags.
  destruct v as [x|x|l]; try discriminate.
  destruct Hv as [[Hl Hn] Vv]. simpl in Vv.
  destruct (idiv_items_spec l Hn Hmask Hv7) as (xs & Exs & Lxs & Vxs);
    [ assumption | intros E; rewrite E in Im; symmetry in Im; flags | | ].
  { intros E1 E2. apply Hsc. rewrite E1 in Im. rewrite E2 in Ia7.
    rewrite Ia3, Ia2, Ia1, Ia0, Ia6, Ia5, Ia4, Ia0 in Ia7. revert Im Ia7.
    destruct (is_arr rads), (is_arr rads_hard), (is_arr mass_obj),
      (is_arr mstar), (is_arr mass_stars); simpl; congruence. }
  eapply runs_step; [exact Exs|].
  apply runs_ret. simpl in Fr.
  split; [apply extends_store; [assumption|lia]|].
  split; [simpl; rewrite length_store; lia|].
  split; [|split; reflexivity].
  split.
  - simpl. rewrite length_store, load_store_same by assumption. auto.
  - intros i Hi. simpl. rewrite load_store_same by assumption.
    rewrite Vxs, Vv by assumption. reflexivity.
Qed.

End FunctionSpecs.

Section HardenElementwise.

Context {F : Type} {NL : NumLib F}.

Variables NWTG MSOL : F.

(** The policies [harden] accepts. *)
Definition policy_ok (self : config F) : bool :=
  ((DF_WHICH_BH self =? 1) || (DF_WHICH_BH self =? 2) || (DF_WHICH_BH self =? 0))%Z.

(** The object mass of an accepted policy, at one element. *)
Definition mass_obj_elt (self : config F) (m1 m2 : F) : F :=
  if (DF_WHICH_BH self =? 1)%Z then m1
  else if (DF_WHICH_BH self =? 2)%Z then m2
  else fadd m1 m2.

(** The mask of lines 85-88 at one element. *)
Definition gas_cut (sets : settings) (rads rads_sg : F) : bool :=
  VISC_DISK_FLAG sets && SELF_GRAV_RAD sets &&
  (fltb rads rads_sg && fltb (lit 0) rads_sg).

(** One element of [dvdt_g]. *)
Definition harden_gas_elt (self : config F) (sets : settings)
  (mass_obj rads dens_gas vcirc vdisp rads_sg coulomb : F) : F :=
  let gas_vel := fmul vdisp (GAS_VEL_SOFT self) in
  let dvdt_g := dvdt_full_elt NWTG mass_obj dens_gas vcirc gas_vel coulomb in
  if gas_cut sets rads rads_sg then lit 0 else dvdt_g.

(** One element of [dvdt]. *)
Definition harden_other_elt (self : config F)
  (mass_obj rads dens_stars dens_dm vcirc vdisp coulomb rads_hard mass_stars : F) : F :=
  let dens_other := fadd dens_stars dens_dm in
  if DF_ATTENUATED self
  then dvdt_attenuated_elt NWTG mass_obj rads dens_other vcirc vdisp coulomb
         rads_hard (fmul (MSTAR self) MSOL) mass_stars
  else dvdt_full_elt NWTG mass_obj dens_other vcirc vdisp coulomb.

End HardenElementwise.

Section HardenSpecs.

Context {F : Type} {NL : NumLib F}.

Local Abbreviation heap := (heap F).

Variables NWTG MSOL : F.

Lemma harden_gas_spec n (h : heap) self sets
  mass_obj rads dens_gas vcirc vdisp rads_sg coulomb Pm Pr Pd Pv Ps Pg Pc :
  holds n h mass_obj Pm -> holds n h rads Pr -> holds n h dens_gas Pd ->
  holds n h vcirc Pv -> holds n h vdisp Ps -> holds n h rads_sg Pg ->
  holds n h coulomb Pc ->
  (VISC_DISK_FLAG sets && SELF_GRAV_RAD sets = true ->
   is_arr mass_obj || is_arr dens_gas || is_arr vcirc || is_arr vdisp || is_arr coulomb
     = true) ->
  yields (harden_gas NWTG self sets mass_obj rads dens_gas vcirc vdisp rads_sg coulomb) h
    (result_is n h
       (fun i => harden_gas_elt NWTG self sets (Pm i) (Pr i) (Pd i) (Pv i) (Ps i)
                   (Pg i) (Pc i))
       (is_arr mass_obj || is_arr dens_gas || is_arr vcirc || is_arr vdisp
        || is_arr coulomb)
       false).
Proof.
  intros Hm Hr Hd Hvel Hs Hg Hc Harr.
  unfold yields, harden_gas, harden_gas_elt, gas_cut.
  pose proof (extends_refl h) as Base.
  step Base py_mul_spec.
  step Base dvdt_full_spec.
  destruct (VISC_DISK_FLAG sets && SELF_GRAV_RAD sets) eqn:Eflags; simpl.
  - specialize (Harr eq_refl).
    destruct (py_lt_spec Hr Hg) as (p & Ep & Hp & _).
    match goal with
    | H : holds _ ?hc rads_sg _ |- _ =>
        destruct (py_lt_spec (holds_py n hc (lit 0)) H) as (q & Eq & Hq & _);
        destruct (py_and_spec hc Hp Hq) as (m & Em & Hmask & _)
    end.
    assert (Iv : is_arr v0 = true) by flags.
    destruct v0 as [x|x|l]; try discriminate.
    destruct Hv0 as [[Hl Hn] Vv]. simpl in Vv.
    destruct (setitem_spec l (lit 0) Hn Hmask) as (xs & Exs & Lxs & Vxs).
    eapply runs_step.
    { unfold bind, py_gt. rewrite Ep, Eq, Em. exact Exs. }
    apply runs_ret. simpl in Fr0.
    split; [apply extends_store; [assumption|lia]|].
    split; [simpl; rewrite length_store; lia|].
    split; [|split; [|reflexivity]].
    + split.
      * simpl. rewrite length_store, load_store_same by assumption. auto.
      * intros i Hi. simpl. rewrite load_store_same by assumption.
        rewrite Vxs, Vv by assumption. reflexivity.
    + simpl. symmetry. flags.
  - eapply runs_step; [reflexivity|].
    finish Hv0.
Qed.

Lemma harden_other_spec n (h : heap) self
  mass_obj rads dens_stars dens_dm vcirc vdisp coulomb rads_hard mass_stars
  Pm Pr Pd1 Pd2 Pv Ps Pc Ph Pst :
  holds n h mass_obj Pm -> holds n h rads Pr -> holds n h dens_stars Pd1 ->
  holds n h dens_dm Pd2 -> holds n h vcirc Pv -> holds n h vdisp Ps ->
  holds n h coulomb Pc -> holds n h rads_hard Ph -> holds n h mass_stars Pst ->
  (DF_ATTENUATED self = true ->
   is_py mass_stars = false /\ is_arr vcirc = true /\ is_arr rads = true) ->
  yields (harden_other NWTG MSOL self mass_obj rads dens_stars dens_dm vcirc vdisp
            coulomb rads_hard mass_stars) h
    (result_is n h
       (fun i => harden_other_elt NWTG MSOL self (Pm i) (Pr i) (Pd1 i) (Pd2 i)
                   (Pv i) (Ps i) (Pc i) (Ph i) (Pst i))
       (is_arr mass_obj || (is_arr dens_stars || is_arr dens_dm) || is_arr vcirc
        || is_arr vdisp || is_arr coulomb)
       false).
Proof.
  intros Hm Hr Hd1 Hd2 Hvel Hs Hc Hh Hst Hatt.
  unfold yields, harden_other, harden_other_elt.
  pose proof (extends_refl h) as Base.
  step Base py_add_spec.
  destruct (DF_ATTENUATED self).
  - destruct (Hatt eq_refl) as (Hpy & Harr & Hrads).
    step Base py_mul_spec.
    eapply runs_of_yields.
    + match goal with
      | H : holds ?n _ _ _ |- _ => eapply dvdt_attenuated_spec with (n := n)
      end; first [ solve_holds | flags ].
    + intros a h' X (Fr1 & Hv1 & Ia1 & Ip1). advance Base X.
      split; [assumption|]. split; [assumption|]. split; [exact Hv1|].
      split; [flags|assumption].
  - eapply runs_of_yields.
    + match goal with
      | H : holds ?n _ _ _ |- _ => eapply dvdt_full_spec with (n := n)
      end; solve_holds.
    + intros a h' X (Fr1 & Hv1 & Ia1 & Ip1). advance Base X.
      split; [assumption|]. split; [assumption|]. split; [exact Hv1|].
      split; [flags|assumption].
Qed.

Lemma harden_mass_obj_spec n (h : heap) self m1 m2 P1 P2 :
  holds n h m1 P1 -> holds n h m2 P2 -> policy_ok self = true ->
  yields (harden_mass_obj self m1 m2) h
    (fun v h' => holds n h' v (fun i => mass_obj_elt self (P1 i) (P2 i))).
Proof.
  intros H1 H2 Hok. unfold harden_mass_obj, mass_obj_elt, policy_ok in *.
  destruct (DF_WHICH_BH self =? 1)%Z; [now apply yields_ret|].
  destruct (DF_WHICH_BH self =? 2)%Z; [now apply yields_ret|].
  destruct (DF_WHICH_BH self =? 0)%Z; [|discriminate].
  eapply yields_weaken; [apply py_add_spec; eassumption|].
  intros a h' _ (_ & Hv & _). exact Hv.
Qed.

End HardenSpecs.

Section HardenRuns.

Context {F : Type} {NL : NumLib F}.

Local Abbreviation heap := (heap F).

Variables NWTG MSOL : F.
Variable dvdt_to_dadt : value F -> value F -> value F -> Mon F (value F * value F).

(** Lines 101-104: what is left of [harden] once the two decelerations are
    known. *)
Definition harden_convert (rads vcirc dvdt dvdt_g : value F)
  : Mon F (value F * value F) :=
  '(dadt, tau) <- dvdt_to_dadt rads vcirc dvdt ;;
  '(dadt_g, tau_g) <- dvdt_to_dadt rads vcirc dvdt_g ;;
  ret (dadt, dadt_g).

(** What [harden] knows of an intermediate result [v] when it reaches the
    conversion in [h1]: it was computed during the call, it has the
    elements [P], and it is an array when the separations are. *)
Definition computed (n : nat) (h : heap) (rads : value F) (P : nat -> F)
  (v : value F) (h1 : heap) : Prop :=
  fresh h h1 v /\ holds n h1 v P /\ (is_arr rads = true -> is_arr v = true).

(** [harden] up to the conversion: the heap [h1] it hands to
    [dvdt_to_dadt] has all arrays of [h] unchanged, and the circular
    velocity and the two decelerations are new values with the
    element-wise contents.  The masked updates need the separations in an
    array. *)
Lemma harden_runs n (h : heap) self sets
  m1 m2 rads dens_gas dens_stars dens_dm vdisp rads_hard mass_stars rads_sg
  P1 P2 Pr Pdg Pds Pdd Ps Ph Pst Pg :
  holds n h m1 P1 -> holds n h m2 P2 -> holds n h rads Pr ->
  holds n h dens_gas Pdg -> holds n h dens_stars Pds -> holds n h dens_dm Pdd ->
  holds n h vdisp Ps -> holds n h rads_hard Ph -> holds n h mass_stars Pst ->
  holds n h rads_sg Pg ->
  policy_ok self = true ->
  (DF_ATTENUATED self = true \/ VISC_DISK_FLAG sets && SELF_GRAV_RAD sets = true ->
   is_arr rads = true) ->
  is_py m1 && is_py m2 = false ->
  (DF_ATTENUATED self = true -> is_py mass_stars = false) ->
  exists h1 vcirc dvdt dvdt_g,
    harden NWTG MSOL dvdt_to_dadt self sets m1 m2 rads dens_gas dens_stars dens_dm
      vdisp rads_hard mass_stars rads_sg h
    = harden_convert rads vcirc dvdt dvdt_g h1 /\
    extends h h1 /\
    computed n h rads (fun i => vel_circ_elt NWTG (P1 i) (P2 i) (Pr i)) vcirc h1 /\
    computed n h rads
      (fun i => harden_other_elt NWTG MSOL self
                  (mass_obj_elt self (P1 i) (P2 i)) (Pr i) (Pds i) (Pdd i)
                  (vel_circ_elt NWTG (P1 i) (P2 i) (Pr i)) (Ps i)
                  (COULOMB_LOGARITHM self) (Ph i) (Pst i))
      dvdt h1 /\
    computed n h rads
      (fun i => harden_gas_elt NWTG self sets
                  (mass_obj_elt self (P1 i) (P2 i)) (Pr i) (Pdg i)
                  (vel_circ_elt NWTG (P1 i) (P2 i) (Pr i)) (Ps i) (Pg i)
                  (COULOMB_LOGARITHM self))
      dvdt_g h1.
Proof.
  intros H1 H2 Hr Hdg Hds Hdd Hs Hh Hst Hg Hok Harr Hpy Hatt.
  pose proof (extends_refl h) as Base.
  destruct (harden_mass_obj_spec self H1 H2 Hok) as (mo & ha & E1 & X1 & Hmo).
  advance Base X1.
  destruct (vel_circ_spec NWTG H1 H2 Hr) as (vc & hb & E2 & X2 & Fvc & Hvc & Ivc & Pvc).
  { intros E. apply not_py_nonzero. rewrite E, andb_true_r in Hpy. exact Hpy. }
  { intros E. rewrite E in Hpy. discriminate. }
  advance Base X2.
  assert (Avc : is_arr rads = true -> is_arr vc = true) by (intros Er; flags).
  pose proof (holds_py n hb (COULOMB_LOGARITHM self)) as Hc.
  destruct (harden_gas_spec NWTG self sets Hmo Hr Hdg Hvc Hs Hg Hc)
    as (dg & hc & E3 & X3 & Fdg & Hdg' & Idg & Pdg').
  { intros Efl. rewrite (Avc (Harr (or_intror Efl))). now rewrite !orb_true_r. }
  advance Base X3.
  destruct (harden_other_spec NWTG MSOL self Hmo Hr Hds Hdd Hvc Hs Hc Hh Hst)
    as (dv & hd & E4 & X4 & Fdv & Hdv & Idv & Pdv).
  { intros Eat. split; [now apply Hatt|].
    split; [apply Avc|]; apply Harr; now left. }
  advance Base X4.
  exists hd, vc, dv, dg.
  split.
  { unfold harden, harden_convert, bind at 1 2 3 4.
    rewrite E1, E2, E3, E4. reflexivity. }
  split; [exact Base|].
  split; [|split]; (split; [assumption|split; [assumption|]]).
  - exact Avc.
  - intros Er. rewrite Idv, (Avc Er). now rewrite !orb_true_r.
  - intros Er. rewrite Idg, (Avc Er). now rewrite !orb_true_r.
Qed.

End HardenRuns.

(** * The real numbers as the numeric library *)

Section RealNumbers.

Local Open Scope R_scope.

(** [scipy.special.erf] is [2/sqrt(pi)] times the integral of
    [exp(-t^2)] from 0 to [x]. *)
Definition gauss (t : R) : R := exp (- (t * t)).

Lemma gauss_continuity : continuity gauss.
Proof.
  apply derivable_continuous. unfold gauss. reg.
Qed.

Lemma gauss_integrable (a b : R) : Riemann_integrable gauss a b.
Proof.
  destruct (Rle_dec a b) as [Hab|Hab].
  - apply continuity_implies_RiemannInt; [assumption|].
    intros x _. apply gauss_continuity.
  - apply RiemannInt_P1. apply continuity_implies_RiemannInt; [lra|].
    intros x _. apply gauss_continuity.
Qed.

Definition erf (x : R) : R := 2 / sqrt PI * RiemannInt (gauss_integrable 0 x).

Definition Rltb (x y : R) : bool := if Rlt_dec x y then true else false.

Definition Rzerob (x : R) : bool := if Req_dec_T x 0 then true else false.

#[export] Instance RealLib : NumLib R := {|
  lit := IZR;
  np_pi := PI;
  fadd := Rplus;
  fsub := Rminus;
  fmul := Rmult;
  fdiv := Rdiv;
  fneg := Ropp;
  fltb := Rltb;
  is_zero := Rzerob;
  np_sqrt := sqrt;
  np_square := fun x => x * x;
  np_exp := exp;
  np_log := ln;
  np_fabs := Rabs;
  np_maximum := Rmax;
  sp_erf := erf
|}.

(** The class attributes as the source sets them. *)
Definition Dynamical_Friction : config R := {|
  DF_WHICH_BH := 2;
  COULOMB_LOGARITHM := 15;
  DF_ATTENUATED := true;
  GAS_VEL_SOFT := 1;
  MSTAR := 6 / 10;
  SELF_GRAV_RAD_MULT := 1
|}.

(** The Chandrasekhar formula in the words of the specification. *)
Definition chandrasekhar (G m_obj dens v_obj v_disp coulomb_log : R) : R :=
  let x := v_obj / (v_disp * sqrt 2) in
  let erf_term := Rabs (erf x - (2 * x / sqrt PI) * exp (- x ^ 2)) in
  -4 * PI * G ^ 2 * m_obj * dens * erf_term * coulomb_log / v_obj ^ 2.

(** The circular velocity in the words of the specification. *)
Definition v_circ (G m1 m2 rads : R) : R :=
  sqrt (G * (m1 + m2) / rads) / (1 + m2 / m1).

Lemma Rltb_true x y : Rltb x y = true <-> x < y.
Proof. unfold Rltb. destruct (Rlt_dec x y); split; intros; auto; discriminate || lra. Qed.

Lemma Rltb_false x y : Rltb x y = false <-> y <= x.
Proof. unfold Rltb. destruct (Rlt_dec x y); split; intros; auto; discriminate || lra. Qed.

Lemma gauss_decreasing s t : 0 <= s -> s < t -> gauss t < gauss s.
Proof.
  intros Hs Hst. unfold gauss. apply exp_increasing. nra.
Qed.

Lemma gauss_lower_bound a b :
  0 <= a -> a <= b -> gauss b * (b - a) <= RiemannInt (gauss_integrable a b).
Proof.
  intros Ha Hab.
  rewrite <- (RiemannInt_P15 (RiemannInt_P14 a b (gauss b))).
  apply RiemannInt_P19; [assumption|].
  intros x [Hx1 Hx2]. unfold fct_cte.
  left. apply gauss_decreasing; lra.
Qed.

(** The integral is strictly above the rectangle under the end point. *)
Lemma gauss_integral_gt x :
  0 < x -> x * gauss x < RiemannInt (gauss_integrable 0 x).
Proof.
  intros Hx.
  rewrite <- (RiemannInt_P26 (gauss_integrable 0 (x / 2))
                            (gauss_integrable (x / 2) x)
                            (gauss_integrable 0 x)).
  pose proof (@gauss_lower_bound 0 (x / 2)) as L1.
  pose proof (@gauss_lower_bound (x / 2) x) as L2.
  assert (D : gauss x < gauss (x / 2)) by (apply gauss_decreasing; lra).
  specialize (L1 ltac:(lra) ltac:(lra)). specialize (L2 ltac:(lra) ltac:(lra)).
  nra.
Qed.

Lemma sqrt_PI_pos : 0 < sqrt PI.
Proof. apply sqrt_lt_R0. apply PI_RGT_0. Qed.

(** The error-function term of the drag is positive for a moving object. *)
Lemma erf_term_pos x :
  0 < x -> 0 < erf x - (2 * x / sqrt PI) * exp (- (x * x)).
Proof.
  intros Hx. unfold erf. fold (gauss x).
  pose proof (gauss_integral_gt Hx) as G.
  pose proof sqrt_PI_pos as S.
  replace (2 / sqrt PI * RiemannInt (gauss_integrable 0 x)
           - 2 * x / sqrt PI * gauss x)
    with (2 / sqrt PI * (RiemannInt (gauss_integrable 0 x) - x * gauss x))
    by (field; lra).
  apply Rmult_lt_0_compat; [|lra].
  apply Rdiv_lt_0_compat; lra.
Qed.

Lemma dvdt_full_chandrasekhar G m d v s c :
  dvdt_full_elt G m d v s c = chandrasekhar G m d v s c.
Proof.
  unfold dvdt_full_elt, chandrasekhar. cbn.
  set (x := v / (s * sqrt 2)).
  rewrite !Rmult_1_r.
  generalize (Rabs (erf x - 2 * x / sqrt PI * exp (- (x * x)))). intros e.
  unfold Rdiv. ring.
Qed.

(** The full drag is a strict deceleration for positive arguments. *)
Lemma dvdt_full_negative G m d v s c :
  G <> 0 -> 0 < m -> 0 < d -> 0 < v -> 0 < s -> 0 < c ->
  dvdt_full_elt G m d v s c < 0.
Proof.
  intros HG Hm Hd Hv Hs Hc. unfold dvdt_full_elt. cbn.
  set (x := v / (s * sqrt 2)).
  assert (Hx : 0 < x).
  { apply Rdiv_lt_0_compat; [assumption|].
    apply Rmult_lt_0_compat; [assumption|]. apply sqrt_lt_R0. lra. }
  pose proof (erf_term_pos Hx) as He.
  rewrite (Rabs_right _ (Rle_ge _ _ (Rlt_le _ _ He))).
  set (e := erf x - 2 * x / sqrt PI * exp (- (x * x))) in *.
  assert (HG2 : 0 < G * G) by nra.
  assert (Hp : 0 < m * d / (v * v)).
  { apply Rdiv_lt_0_compat; nra. }
  pose proof PI_RGT_0 as Hpi.
  assert (H1 : -4 * PI * (G * G) < 0) by nra.
  assert (H2 : -4 * PI * (G * G) * (m * d / (v * v)) < 0) by nra.
  assert (H3 : -4 * PI * (G * G) * (m * d / (v * v)) * e < 0) by nra.
  nra.
Qed.

Lemma v_circ_elt G m1 m2 r : vel_circ_elt G m1 m2 r = v_circ G m1 m2 r.
Proof. reflexivity. Qed.

Lemma v_circ_decreasing G m1 m2 r1 r2 :
  0 < G -> 0 < m1 -> 0 < m2 -> 0 < r1 -> r1 < r2 ->
  v_circ G m1 m2 r2 < v_circ G m1 m2 r1.
Proof.
  intros HG H1 H2 Hr1 Hr. unfold v_circ.
  assert (Hq : 0 < 1 + m2 / m1).
  { assert (0 < m2 / m1) by (apply Rdiv_lt_0_compat; lra). lra. }
  apply Rmult_lt_compat_r; [apply Rinv_0_lt_compat; assumption|].
  assert (HM : 0 < G * (m1 + m2)) by nra.
  apply sqrt_lt_1_alt. split.
  - left. apply Rdiv_lt_0_compat; lra.
  - unfold Rdiv. apply Rmult_lt_compat_l; [assumption|].
    apply Rinv_lt_contravar; nra.
Qed.

Lemma v_circ_test_mass G m1 r : v_circ G m1 0 r = sqrt (G * m1 / r).
Proof.
  unfold v_circ. replace (1 + 0 / m1) with 1 by (unfold Rdiv; ring).
  rewrite Rplus_0_r. unfold Rdiv at 1. rewrite Rinv_1. ring.
Qed.

End RealNumbers.

(** * The properties of the module *)

Section Policy.

Context {F : Type} {NL : NumLib F}.

Variables NWTG MSOL : F.
Variable dvdt_to_dadt : value F -> value F -> value F -> Mon F (value F * value F).

(** C3.  [harden] takes the object mass of the configured policy and
    computes everything else with it.  Under policy 1 a call of [harden]
    is the rest of its body, lines 79-104, run with [mass_obj = m1]; under
    policy 2, with [mass_obj = m2]; under policy 0 the sum [m1 + m2] is
    computed first and the rest runs with the result.  For any other
    policy [harden] raises [ValueError] from any heap and for any
    arguments, with the heap exactly as it was: no array has been
    computed, and the exception is what the caller gets.  Where the
    decelerations are computed, for scalars and arrays of one length as
    in [harden_runs], each element of the gas and of the background
    deceleration is the drag formula at the object mass [m1], [m2] or
    [m1 + m2] of that element. *)
Theorem harden_policy (self : config F) (sets : settings)
  (m1 m2 rads dens_gas dens_stars dens_dm vdisp rads_hard mass_stars rads_sg : value F)
  (h : heap F) :
  let coulomb := PyFloat (COULOMB_LOGARITHM self) in
  let rest := fun mass_obj : value F =>
    vcirc <- _vel_circ NWTG m1 m2 rads ;;
    dvdt_g <- harden_gas NWTG self sets mass_obj rads dens_gas vcirc vdisp rads_sg
                coulomb ;;
    dvdt <- harden_other NWTG MSOL self mass_obj rads dens_stars dens_dm vcirc vdisp
              coulomb rads_hard mass_stars ;;
    '(dadt, tau) <- dvdt_to_dadt rads vcirc dvdt ;;
    '(dadt_g, tau_g) <- dvdt_to_dadt rads vcirc dvdt_g ;;
    ret (dadt, dadt_g) in
  (DF_WHICH_BH self = 1%Z ->
   harden NWTG MSOL dvdt_to_dadt self sets m1 m2 rads dens_gas dens_stars dens_dm
     vdisp rads_hard mass_stars rads_sg h = rest m1 h) /\
  (DF_WHICH_BH self = 2%Z ->
   harden NWTG MSOL dvdt_to_dadt self sets m1 m2 rads dens_gas dens_stars dens_dm
     vdisp rads_hard mass_stars rads_sg h = rest m2 h) /\
  (DF_WHICH_BH self = 0%Z ->
   harden NWTG MSOL dvdt_to_dadt self sets m1 m2 rads dens_gas dens_stars dens_dm
     vdisp rads_hard mass_stars rads_sg h
   = (mass_obj <- py_add m1 m2 ;; rest mass_obj) h) /\
  (policy_ok self = false ->
   harden NWTG MSOL dvdt_to_dadt self sets m1 m2 rads dens_gas dens_stars dens_dm
     vdisp rads_hard mass_stars rads_sg h = (Raise ValueError, h)) /\
  (forall n,
     shaped n h m1 -> shaped n h m2 -> shaped n h rads ->
     shaped n h dens_gas -> shaped n h dens_stars -> shaped n h dens_dm ->
     shaped n h vdisp -> shaped n h rads_hard -> shaped n h mass_stars ->
     shaped n h rads_sg ->
     policy_ok self = true ->
     (DF_ATTENUATED self = true \/ VISC_DISK_FLAG sets && SELF_GRAV_RAD sets = true ->
      is_arr rads = true) ->
     is_py m1 && is_py m2 = false ->
     (DF_ATTENUATED self = true -> is_py mass_stars = false) ->
     exists h1 vcirc dvdt dvdt_g,
       harden NWTG MSOL dvdt_to_dadt self sets m1 m2 rads dens_gas dens_stars dens_dm
         vdisp rads_hard mass_stars rads_sg h
       = ('(dadt, tau) <- dvdt_to_dadt rads vcirc dvdt ;;
          '(dadt_g, tau_g) <- dvdt_to_dadt rads vcirc dvdt_g ;;
          ret (dadt, dadt_g)) h1 /\
       forall i, i < n ->
         let mass_obj :=
           if (DF_WHICH_BH self =? 1)%Z then elt h m1 i
           else if (DF_WHICH_BH self =? 2)%Z then elt h m2 i
           else fadd (elt h m1 i) (elt h m2 i) in
         elt h1 dvdt_g i =
           harden_gas_elt NWTG self sets mass_obj (elt h rads i) (elt h dens_gas i)
             (elt h1 vcirc i) (elt h vdisp i) (elt h rads_sg i)
             (COULOMB_LOGARITHM self) /\
         elt h1 dvdt i =
           harden_other_elt NWTG MSOL self mass_obj (elt h rads i)
             (elt h dens_stars i) (elt h dens_dm i) (elt h1 vcirc i) (elt h vdisp i)
             (COULOMB_LOGARITHM self) (elt h rads_hard i) (elt h mass_stars i)).
Proof.
  intros coulomb rest.
  split; [|split; [|split; [|split]]].
  - intros E. unfold harden, harden_mass_obj. rewrite E. reflexivity.
  - intros E. unfold harden, harden_mass_obj. rewrite E. reflexivity.
  - intros E. unfold harden, harden_mass_obj. rewrite E. reflexivity.
  - intros Hbad. unfold policy_ok in Hbad. unfold harden, harden_mass_obj, bind.
    destruct (DF_WHICH_BH self =? 1)%Z; [discriminate|].
    destruct (DF_WHICH_BH self =? 2)%Z; [discriminate|].
    destruct (DF_WHICH_BH self =? 0)%Z; [discriminate|].
    reflexivity.
  - intros n S1 S2 Sr Sdg Sds Sdd Ss Sh Sst Sg Hok Harr Hpy Hatt.
    destruct (harden_runs NWTG MSOL dvdt_to_dadt self sets
                (holds_self S1) (holds_self S2) (holds_self Sr) (holds_self Sdg)
                (holds_self Sds) (holds_self Sdd) (holds_self Ss) (holds_self Sh)
                (holds_self Sst) (holds_self Sg) Hok Harr Hpy Hatt)
      as (h1 & vcirc & dvdt & dvdt_g & E & _ & (_ & [_ Vvc] & _)
          & (_ & [_ Vdv] & _) & (_ & [_ Vdg] & _)).
    exists h1, vcirc, dvdt, dvdt_g. split; [exact E|].
    intros i Hi. cbv zeta. rewrite Vdg, Vdv, Vvc by assumption.
    split; reflexivity.
Qed.

End Policy.

Section Computation.

Context {F : Type} {NL : NumLib F}.

Variables NWTG MSOL : F.
Variable dvdt_to_dadt : value F -> value F -> value F -> Mon F (value F * value F).

(** C6.  For scalars and arrays of one length, the separations in an
    array when a masked update is configured, [harden] reaches the
    conversion with all arrays of the caller unchanged and three new
    values: the circular velocity; the gas deceleration, which is the full
    formula on the gas density with the dispersion scaled by
    [GAS_VEL_SOFT] (and cut off where the mask of lines 85-88 holds); the
    background deceleration on the one density [dens_stars + dens_dm],
    attenuated when [DF_ATTENUATED] and full otherwise.  What it returns
    is what [dvdt_to_dadt(rads, vcirc, dvdt)] and then
    [dvdt_to_dadt(rads, vcirc, dvdt_g)] return, first components only. *)
Theorem harden_computes n (h : heap F) (self : config F) (sets : settings)
  (m1 m2 rads dens_gas dens_stars dens_dm vdisp rads_hard mass_stars rads_sg : value F) :
  shaped n h m1 -> shaped n h m2 -> shaped n h rads ->
  shaped n h dens_gas -> shaped n h dens_stars -> shaped n h dens_dm ->
  shaped n h vdisp -> shaped n h rads_hard -> shaped n h mass_stars ->
  shaped n h rads_sg ->
  policy_ok self = true ->
  (DF_ATTENUATED self = true \/ VISC_DISK_FLAG sets && SELF_GRAV_RAD sets = true ->
   is_arr rads = true) ->
  is_py m1 && is_py m2 = false ->
  (DF_ATTENUATED self = true -> is_py mass_stars = false) ->
  exists h1 vcirc dvdt dvdt_g,
    harden NWTG MSOL dvdt_to_dadt self sets m1 m2 rads dens_gas dens_stars dens_dm
      vdisp rads_hard mass_stars rads_sg h
    = ('(dadt, tau) <- dvdt_to_dadt rads vcirc dvdt ;;
       '(dadt_g, tau_g) <- dvdt_to_dadt rads vcirc dvdt_g ;;
       ret (dadt, dadt_g)) h1 /\
    extends h h1 /\
    shaped n h1 vcirc /\ shaped n h1 dvdt /\ shaped n h1 dvdt_g /\
    forall i, i < n ->
      let mass_obj := mass_obj_elt self (elt h m1 i) (elt h m2 i) in
      let coulomb := COULOMB_LOGARITHM self in
      let gas_vel := fmul (elt h vdisp i) (GAS_VEL_SOFT self) in
      let dens_other := fadd (elt h dens_stars i) (elt h dens_dm i) in
      let mstar := fmul (MSTAR self) MSOL in
      elt h1 vcirc i = vel_circ_elt NWTG (elt h m1 i) (elt h m2 i) (elt h rads i) /\
      elt h1 dvdt_g i =
        (if gas_cut sets (elt h rads i) (elt h rads_sg i) then lit 0
         else dvdt_full_elt NWTG mass_obj (elt h dens_gas i) (elt h1 vcirc i)
                gas_vel coulomb) /\
      elt h1 dvdt i =
        (if DF_ATTENUATED self
         then dvdt_attenuated_elt NWTG mass_obj (elt h rads i) dens_other
                (elt h1 vcirc i) (elt h vdisp i) coulomb (elt h rads_hard i)
                mstar (elt h mass_stars i)
         else dvdt_full_elt NWTG mass_obj dens_other (elt h1 vcirc i)
                (elt h vdisp i) coulomb).
Proof.
  intros S1 S2 Sr Sdg Sds Sdd Ss Sh Sst Sg Hok Harr Hpy Hatt.
  destruct (harden_runs NWTG MSOL dvdt_to_dadt self sets
              (holds_self S1) (holds_self S2) (holds_self Sr) (holds_self Sdg)
              (holds_self Sds) (holds_self Sdd) (holds_self Ss) (holds_self Sh)
              (holds_self Sst) (holds_self Sg) Hok Harr Hpy Hatt)
    as (h1 & vcirc & dvdt & dvdt_g & E & X & Rvc & Rdv & Rdg).
  exists h1, vcirc, dvdt, dvdt_g.
  destruct Rvc as (_ & [Svc Vvc] & _), Rdv as (_ & [Sdv Vdv] & _),
           Rdg as (_ & [Sdg' Vdg] & _).
  split; [exact E|]. split; [exact X|].
  repeat split; try assumption.
  - now apply Vvc.
  - rewrite Vdg, Vvc by assumption. reflexivity.
  - rewrite Vdv, Vvc by assumption. reflexivity.
Qed.

(** C7.  Neither formula looks at its operands before it divides or takes
    a logarithm.  Whatever the velocities are, zero included,
    [_dvdt_full] returns the library's quotient by [np.square(vel_obj)].
    Whatever [mass_stars / mstar] is, non-positive included,
    [_dvdt_attenuated] returns where line 146 can divide
    ([mask_broadcasts]: an array among the radii and the masses, or every
    separation inside the hard regime), and in the hard regime the result
    is the full drag divided by the factor built on
    [np.log(mass_stars / mstar)].  No exception, no clamping, no
    substituted value: no condition is on the value of a velocity or of a
    mass. *)
Theorem degenerate_inputs_unguarded n (h : heap F)
  (mass_obj rads dens vel_obj vdisp coul rads_hard mstar mass_stars : value F) :
  shaped n h mass_obj -> shaped n h rads -> shaped n h dens ->
  shaped n h vel_obj -> shaped n h vdisp -> shaped n h coul ->
  shaped n h rads_hard -> shaped n h mstar -> shaped n h mass_stars ->
  (exists v h',
     _dvdt_full NWTG mass_obj rads dens vel_obj vdisp coul h = (Ok v, h') /\
     forall i, i < n ->
       let velf := fdiv (elt h vel_obj i) (fmul (elt h vdisp i) (np_sqrt (lit 2))) in
       let const := fmul (fmul (lit (-4)) np_pi) (np_square NWTG) in
       let erfs :=
         np_fabs (fsub (sp_erf velf)
                       (fmul (fdiv (fmul (lit 2) velf) (np_sqrt np_pi))
                             (np_exp (fneg (np_square velf))))) in
       elt h' v i =
       fmul (fmul (fmul const
                     (fdiv (fmul (elt h mass_obj i) (elt h dens i))
                           (np_square (elt h vel_obj i))))
                  erfs)
            (elt h coul i)) /\
  (is_py mass_stars = false -> is_arr vel_obj = true ->
   mask_broadcasts n h mass_obj rads rads_hard mstar mass_stars ->
   exists v h',
     _dvdt_attenuated NWTG mass_obj rads dens vel_obj vdisp coul
       rads_hard mstar mass_stars h = (Ok v, h') /\
     forall i, i < n ->
       fltb (elt h rads i) (elt h rads_hard i) = true ->
       let numStars := fdiv (elt h mass_stars i) (elt h mstar i) in
       let atten1 := fdiv (fmul (np_log numStars) (elt h rads_hard i)) (elt h rads i) in
       let atten2 :=
         fmul (np_square (fdiv (elt h mass_obj i) (elt h mass_stars i))) numStars in
       elt h' v i =
       fdiv (dvdt_full_elt NWTG (elt h mass_obj i) (elt h dens i) (elt h vel_obj i)
               (elt h vdisp i) (elt h coul i))
            (np_maximum atten1 atten2)).
Proof.
  intros Sm Sr Sd Sv Ss Sc Sh Sms Sst. split.
  - destruct (dvdt_full_spec NWTG rads (holds_self Sm) (holds_self Sd)
                (holds_self Sv) (holds_self Ss) (holds_self Sc))
      as (v & h' & E & _ & _ & [_ V] & _).
    exists v, h'. split; [exact E|]. intros i Hi.
    rewrite V by assumption. reflexivity.
  - intros Hpy Harr Hmask.
    destruct (dvdt_attenuated_spec NWTG (holds_self Sm) (holds_self Sr)
                (holds_self Sd) (holds_self Sv) (holds_self Ss) (holds_self Sc)
                (holds_self Sh) (holds_self Sms) (holds_self Sst) Hpy)
      as (v & h' & E & _ & _ & [_ V] & _).
    { rewrite Harr. now rewrite !orb_true_r. }
    { exact (mask_broadcasts_scalars Hmask). }
    exists v, h'. split; [exact E|]. intros i Hi Hlt.
    rewrite V by assumption. unfold dvdt_attenuated_elt, lc_atten_elt.
    rewrite Hlt. reflexivity.
Qed.

End Computation.

Section RealProperties.

Local Open Scope R_scope.

(** Every element of [v] is positive. *)
Definition positive (h : heap R) (v : value R) : Prop :=
  match v with
  | PyFloat x | NpFloat x => 0 < x
  | NdArray l => forall x, In x (load h l) -> 0 < x
  end.

Lemma positive_nonzero_py h v : positive h v -> nonzero_py v.
Proof.
  destruct v as [x|x|l]; simpl; auto. intros Hx.
  unfold Rzerob. destruct (Req_dec_T x 0); [lra|reflexivity].
Qed.

(** C4.  For scalars and arrays of one length, [_dvdt_full] returns, and
    each element of what it returns is the Chandrasekhar formula of the
    specification at the corresponding elements of its arguments:
    [-4 pi G^2 m_obj dens erf_term coul / vel_obj^2] with
    [erf_term = |erf(x) - (2x/sqrt(pi)) exp(-x^2)|] and
    [x = vel_obj / (vdisp sqrt(2))]. *)
Theorem dvdt_full_is_chandrasekhar (G : R) n (h : heap R)
  (mass_obj rads dens vel_obj vdisp coul : value R) :
  shaped n h mass_obj -> shaped n h dens -> shaped n h vel_obj ->
  shaped n h vdisp -> shaped n h coul ->
  exists v h',
    _dvdt_full G mass_obj rads dens vel_obj vdisp coul h = (Ok v, h') /\
    extends h h' /\ shaped n h' v /\
    forall i, (i < n)%nat ->
      elt h' v i =
      chandrasekhar G (elt h mass_obj i) (elt h dens i) (elt h vel_obj i)
        (elt h vdisp i) (elt h coul i).
Proof.
  intros Sm Sd Sv Ss Sc.
  destruct (dvdt_full_spec G rads (holds_self Sm) (holds_self Sd)
              (holds_self Sv) (holds_self Ss) (holds_self Sc))
    as (v & h' & E & X & _ & [S V] & _).
  exists v, h'. split; [exact E|]. split; [exact X|]. split; [exact S|].
  intros i Hi. rewrite V by assumption. apply dvdt_full_chandrasekhar.
Qed.

(** C5.  For positive masses and separations, scalars or arrays of one
    length, each element of [_vel_circ(m1, m2, rads)] is
    [sqrt(G (m1 + m2) / rads) / (1 + m2 / m1)].  That value, which is what
    the function returns on NumPy scalars, decreases strictly when the
    separation grows, and at [m2 = 0] it is [sqrt(G m1 / rads)]. *)
Theorem vel_circ_properties (G : R) n (h : heap R) (m1 m2 rads : value R) :
  0 < G ->
  shaped n h m1 -> shaped n h m2 -> shaped n h rads ->
  positive h m1 -> positive h m2 -> positive h rads ->
  (exists v h',
     _vel_circ G m1 m2 rads h = (Ok v, h') /\
     extends h h' /\ shaped n h' v /\
     forall i, (i < n)%nat ->
       elt h' v i =
       sqrt (G * (elt h m1 i + elt h m2 i) / elt h rads i)
       / (1 + elt h m2 i / elt h m1 i)) /\
  (forall a b r (h0 : heap R),
     _vel_circ G (NpFloat a) (NpFloat b) (NpFloat r) h0
     = (Ok (NpFloat (vel_circ_elt G a b r)), h0)) /\
  (forall a b r1 r2, 0 < a -> 0 < b -> 0 < r1 -> r1 < r2 ->
     vel_circ_elt G a b r2 < vel_circ_elt G a b r1) /\
  (forall a r, vel_circ_elt G a 0 r = sqrt (G * a / r)).
Proof.
  intros HG S1 S2 Sr P1 P2 Pr. split; [|split; [reflexivity|split]].
  - destruct (vel_circ_spec G (holds_self S1) (holds_self S2) (holds_self Sr))
      as (v & h' & E & X & _ & [S V] & _).
    + intros _. now apply positive_nonzero_py with (h := h).
    + intros _. now apply positive_nonzero_py with (h := h).
    + exists v, h'. split; [exact E|]. split; [exact X|]. split; [exact S|].
      intros i Hi. rewrite V by assumption. reflexivity.
  - intros a b r1 r2 Ha Hb Hr1 Hr. rewrite !v_circ_elt.
    now apply v_circ_decreasing.
  - intros a r. rewrite v_circ_elt. apply v_circ_test_mass.
Qed.

(** Over the reals the mask of lines 85-88 holds exactly when both flags
    are set and [0 < rads_sg] and [rads < rads_sg]. *)
Lemma gas_cut_iff sets (rads rads_sg : R) :
  gas_cut sets rads rads_sg = true <->
  VISC_DISK_FLAG sets = true /\ SELF_GRAV_RAD sets = true /\
  rads < rads_sg /\ 0 < rads_sg.
Proof.
  unfold gas_cut. cbn [fltb lit RealLib].
  rewrite !andb_true_iff, !Rltb_true. tauto.
Qed.

Lemma v_circ_pos G m1 m2 r :
  0 < G -> 0 < m1 -> 0 < m2 -> 0 < r -> 0 < v_circ G m1 m2 r.
Proof.
  intros HG H1 H2 Hr. unfold v_circ.
  apply Rdiv_lt_0_compat.
  - apply sqrt_lt_R0. apply Rdiv_lt_0_compat; nra.
  - assert (0 < m2 / m1) by (apply Rdiv_lt_0_compat; lra). lra.
Qed.




(** C1, the code where the separation exceeds the self-gravity radius.
    With both disk flags set, a separation of 2 and a self-gravity radius
    of 1, the gas deceleration that [harden] passes on is not zero: the
    mask of line 88 is [rads < rads_sg], and it is false here. *)
Theorem gas_drag_not_cut_beyond_self_gravity_radius
  (dvdt_to_dadt : value R -> value R -> value R -> Mon R (value R * value R)) :
  let h : heap R := [[1]; [2]] in
  let one := NdArray 0 in
  let rads := NdArray 1 in
  let rads_sg := NdArray 0 in
  let sets := {| VISC_DISK_FLAG := true; SELF_GRAV_RAD := true |} in
  exists h1 vcirc dvdt dvdt_g,
    harden 1 1 dvdt_to_dadt Dynamical_Friction sets
      one one rads one one one one one one rads_sg h
    = ('(dadt, tau) <- dvdt_to_dadt rads vcirc dvdt ;;
       '(dadt_g, tau_g) <- dvdt_to_dadt rads vcirc dvdt_g ;;
       ret (dadt, dadt_g)) h1 /\
    0 < elt h rads_sg 0 < elt h rads 0 /\
    elt h1 dvdt_g 0 < 0.
Proof.
  intros h one rads rads_sg sets.
  assert (S0 : shaped 1 h one) by (split; [simpl; lia|reflexivity]).
  assert (S1 : shaped 1 h rads) by (split; [simpl; lia|reflexivity]).
  destruct (harden_runs 1 1 dvdt_to_dadt Dynamical_Friction sets
              (holds_self S0) (holds_self S0) (holds_self S1) (holds_self S0)
              (holds_self S0) (holds_self S0) (holds_self S0) (holds_self S0)
              (holds_self S0) (holds_self S0) eq_refl (fun _ => eq_refl) eq_refl
              (fun _ => eq_refl))
    as (h1 & vcirc & dvdt & dvdt_g & E & _ & _ & _ & (_ & [_ V] & _)).
  exists h1, vcirc, dvdt, dvdt_g. split; [exact E|].
  assert (E0 : elt h one 0 = 1) by reflexivity.
  assert (E1 : elt h rads 0 = 2) by reflexivity.
  unfold rads_sg. fold one. rewrite E0, E1. split; [lra|].
  rewrite V by lia. fold one. rewrite E0, E1.
  assert (Hv : 0 < vel_circ_elt 1 1 1 2)
    by (rewrite v_circ_elt; apply v_circ_pos; lra).
  set (vc := vel_circ_elt 1 1 1 2) in *. clearbody vc.
  assert (L : Rltb 2 1 = false) by (apply Rltb_false; lra).
  unfold harden_gas_elt, gas_cut, mass_obj_elt.
  cbn [VISC_DISK_FLAG SELF_GRAV_RAD sets andb fltb RealLib].
  rewrite L.
  cbn [andb DF_WHICH_BH Dynamical_Friction Z.eqb Pos.eqb GAS_VEL_SOFT
       COULOMB_LOGARITHM fmul RealLib].
  apply dvdt_full_negative; lra.
Qed.

End RealProperties.

(** * Scalar arguments *)

Section Scalars.

Context {F : Type} {NL : NumLib F}.

Local Abbreviation heap := (heap F).
Local Abbreviation M := (Mon F).

(** [m] leaves the heap as it is, and returns a result in [Q] or raises an
    exception in [E]. *)
Definition stays {A} (m : M A) (h : heap) (Q : A -> Prop) (E : exn -> Prop) : Prop :=
  match m h with
  | (Ok a, h') => h' = h /\ Q a
  | (Raise e, h') => h' = h /\ E e
  end.

Definition scalar (v : value F) : Prop := is_arr v = false.

(** A scalar, and a Python float exactly when [py]. *)
Definition scalar_of (py : bool) (v : value F) : Prop :=
  is_arr v = false /\ is_py v = py.

Definition never {A} (a : A) : Prop := False.

Lemma stays_ret {A} (a : A) h (Q : A -> Prop) E : Q a -> stays (ret a) h Q E.
Proof. intros H. split; auto. Qed.

Lemma stays_raise {A} e h (Q : A -> Prop) (E : exn -> Prop) :
  E e -> stays (raise e) h Q E.
Proof. intros H. split; auto. Qed.

Lemma stays_bind {A B} (m : M A) (k : A -> M B) h
  (Q : A -> Prop) (R : B -> Prop) E :
  stays m h Q E -> (forall a, Q a -> stays (k a) h R E) -> stays (bind m k) h R E.
Proof.
  unfold stays, bind. intros Hm Hk.
  destruct (m h) as [[a|e] h']; destruct Hm as [-> Ha]; auto.
  now apply Hk.
Qed.

Lemma stays_weaken {A} (m : M A) h (Q Q' : A -> Prop) E :
  stays m h Q E -> (forall a, Q a -> Q' a) -> stays m h Q' E.
Proof.
  unfold stays. destruct (m h) as [[a|e] h']; intros [-> H] W; auto.
Qed.

Lemma stays_fails {A} (m : M A) h E :
  stays m h never E -> exists e, m h = (Raise e, h) /\ E e.
Proof.
  unfold stays. destruct (m h) as [[a|e] h']; intros [-> H].
  - destruct H.
  - eauto.
Qed.

Lemma ufunc1_scalar f a h E :
  scalar a -> stays (ufunc1 f a) h (scalar_of false) E.
Proof.
  destruct a; intros S; try discriminate; repeat split.
Qed.

Lemma ufunc2_scalar f a b h E :
  scalar a -> scalar b -> stays (ufunc2 f a b) h (scalar_of false) E.
Proof.
  destruct a, b; intros Sa Sb; try discriminate; repeat split.
Qed.

Lemma py_add_scalar a b h E :
  scalar a -> scalar b -> stays (py_add a b) h (scalar_of (is_py a && is_py b)) E.
Proof.
  destruct a, b; intros Sa Sb; try discriminate; repeat split.
Qed.

Lemma py_sub_scalar a b h E :
  scalar a -> scalar b -> stays (py_sub a b) h (scalar_of (is_py a && is_py b)) E.
Proof.
  destruct a, b; intros Sa Sb; try discriminate; repeat split.
Qed.

Lemma py_mul_scalar a b h E :
  scalar a -> scalar b -> stays (py_mul a b) h (scalar_of (is_py a && is_py b)) E.
Proof.
  destruct a, b; intros Sa Sb; try discriminate; repeat split.
Qed.

Lemma py_neg_scalar a h E :
  scalar a -> stays (py_neg a) h (scalar_of (is_py a)) E.
Proof.
  destruct a; intros S; try discriminate; repeat split.
Qed.

(** A division of scalars can only raise [ZeroDivisionError], and only
    between two Python floats. *)
Lemma py_div_scalar a b h (E : exn -> Prop) :
  E ZeroDivisionError \/ is_py a && is_py b = false ->
  scalar a -> scalar b ->
  stays (py_div a b) h (scalar_of (is_py a && is_py b)) E.
Proof.
  intros HE. destruct a as [x|x|l], b as [y|y|l']; intros Sa Sb; try discriminate;
    try (repeat split).
  destruct HE as [HE|HE]; [|discriminate].
  unfold stays, py_div. destruct (is_zero y); repeat split; auto.
Qed.

Lemma py_lt_scalar a b h E :
  scalar a -> scalar b -> stays (py_lt a b) h (fun m => is_marr m = false) E.
Proof.
  destruct a, b; intros Sa Sb; try discriminate; split; reflexivity.
Qed.

Lemma py_and_scalar p q (h : heap) E :
  is_marr p = false -> is_marr q = false ->
  stays (py_and p q) h (fun m => is_marr m = false) E.
Proof.
  destruct p, q; intros Sp Sq; try discriminate; split; reflexivity.
Qed.

Lemma setitem_scalar a m c h (E : exn -> Prop) :
  E TypeError -> scalar a -> stays (setitem a m c) h never E.
Proof.
  intros HE. destruct a; intros S; try discriminate; split; auto.
Qed.

Lemma idiv_items_scalar a m b h (E : exn -> Prop) :
  E TypeError -> scalar a -> is_marr m = false -> scalar b ->
  stays (idiv_items a m b) h never E.
Proof.
  intros HE. destruct a, m, b; intros Sa Sm Sb; try discriminate; split; auto.
Qed.

End Scalars.

Tactic Notation "scalar_step" uconstr(lem) :=
  eapply stays_bind;
  [ eapply lem;
    first [ assumption | reflexivity | left; assumption | right; flags ]
  | let v := fresh "v" in
    let S := fresh "S" in
    let P := fresh "P" in
    intros v [S P]; simpl in P ].

Section ScalarFunctions.

Context {F : Type} {NL : NumLib F}.

Local Abbreviation heap := (heap F).

Variables NWTG MSOL : F.
Variable dvdt_to_dadt : value F -> value F -> value F -> Mon F (value F * value F).

Variable E : exn -> Prop.

Lemma vel_circ_scalar m1 m2 sep (h : heap) :
  E ZeroDivisionError \/ is_py m1 && is_py m2 = false ->
  scalar m1 -> scalar m2 -> scalar sep ->
  stays (_vel_circ NWTG m1 m2 sep) h (scalar_of false) E.
Proof.
  intros [Z|Z] S1 S2 Ss; unfold _vel_circ.
  all: scalar_step py_add_scalar.
  all: scalar_step py_div_scalar.
  all: scalar_step py_mul_scalar.
  all: scalar_step py_div_scalar.
  all: scalar_step ufunc1_scalar.
  all: scalar_step py_add_scalar.
  all: scalar_step py_div_scalar.
  all: apply stays_ret; split; [assumption|flags].
Qed.

Lemma dvdt_full_scalar mass_obj rads dens vel_obj vdisp coul (h : heap) :
  scalar mass_obj -> scalar dens -> scalar vel_obj -> scalar vdisp -> scalar coul ->
  stays (_dvdt_full NWTG mass_obj rads dens vel_obj vdisp coul) h scalar E.
Proof.
  intros Sm Sd Sv Ss Sc. unfold _dvdt_full.
  scalar_step ufunc1_scalar.
  scalar_step py_mul_scalar.
  scalar_step py_div_scalar.
  scalar_step py_mul_scalar.
  scalar_step ufunc1_scalar.
  scalar_step py_mul_scalar.
  scalar_step py_mul_scalar.
  scalar_step ufunc1_scalar.
  scalar_step py_div_scalar.
  scalar_step ufunc1_scalar.
  scalar_step py_mul_scalar.
  scalar_step ufunc1_scalar.
  scalar_step py_div_scalar.
  scalar_step ufunc1_scalar.
  scalar_step py_neg_scalar.
  scalar_step ufunc1_scalar.
  scalar_step py_mul_scalar.
  scalar_step py_sub_scalar.
  scalar_step ufunc1_scalar.
  scalar_step py_mul_scalar.
  scalar_step py_mul_scalar.
  scalar_step py_mul_scalar.
  now apply stays_ret.
Qed.

Lemma dvdt_attenuated_scalar
  mass_obj rads dens vel_obj vdisp coul rads_hard mstar mass_stars (h : heap) :
  E TypeError ->
  E ZeroDivisionError \/ is_py mass_stars = false ->
  scalar mass_obj -> scalar rads -> scalar dens -> scalar vel_obj ->
  scalar vdisp -> scalar coul -> scalar rads_hard -> scalar mstar ->
  scalar mass_stars ->
  stays (_dvdt_attenuated NWTG mass_obj rads dens vel_obj vdisp coul
           rads_hard mstar mass_stars) h never E.
Proof.
  intros T [Z|Z] Sm Sr Sd Sv Ss Sc Sh Sms Sst; unfold _dvdt_attenuated.
  all: eapply stays_bind; [now apply dvdt_full_scalar|intros dvdt_atten Sdv].
  all: scalar_step py_div_scalar.
  all: scalar_step ufunc1_scalar.
  all: scalar_step py_mul_scalar.
  all: scalar_step py_div_scalar.
  all: scalar_step py_div_scalar.
  all: scalar_step ufunc1_scalar.
  all: scalar_step py_mul_scalar.
  all: scalar_step ufunc2_scalar.
  all: eapply stays_bind; [now apply py_lt_scalar|intros inds Si].
  all: eapply stays_bind; [now apply idiv_items_scalar|intros _ []].
Qed.

Lemma harden_mass_obj_scalar self m1 m2 (h : heap) :
  E ValueError \/ policy_ok self = true ->
  scalar m1 -> scalar m2 ->
  stays (harden_mass_obj self m1 m2) h scalar E.
Proof.
  intros V S1 S2. unfold harden_mass_obj, policy_ok in *.
  destruct (DF_WHICH_BH self =? 1)%Z; [now apply stays_ret|].
  destruct (DF_WHICH_BH self =? 2)%Z; [now apply stays_ret|].
  destruct (DF_WHICH_BH self =? 0)%Z.
  - eapply stays_weaken; [now apply py_add_scalar|]. now intros a [Sa _].
  - apply stays_raise. destruct V; [assumption|discriminate].
Qed.

Lemma harden_gas_scalar self sets mass_obj rads dens_gas vcirc vdisp rads_sg coulomb
  (h : heap) :
  E TypeError ->
  scalar mass_obj -> scalar rads -> scalar dens_gas -> scalar vcirc ->
  scalar vdisp -> scalar rads_sg -> scalar coulomb ->
  stays (harden_gas NWTG self sets mass_obj rads dens_gas vcirc vdisp rads_sg coulomb) h
    (fun v => scalar v /\ VISC_DISK_FLAG sets && SELF_GRAV_RAD sets = false) E.
Proof.
  intros T Sm Sr Sd Sv Ss Sg Sc. unfold harden_gas.
  scalar_step py_mul_scalar.
  eapply stays_bind; [now apply dvdt_full_scalar|intros dvdt_g Sdg].
  destruct (VISC_DISK_FLAG sets && SELF_GRAV_RAD sets).
  - eapply stays_bind with (Q := never); [|intros _ []].
    eapply stays_bind; [now apply py_lt_scalar|intros p Sp].
    unfold py_gt.
    eapply stays_bind; [now apply py_lt_scalar|intros q Sq].
    eapply stays_bind; [now apply py_and_scalar|intros inds Si].
    now apply setitem_scalar.
  - eapply stays_bind with (Q := fun _ => True); [now apply stays_ret|].
    intros _ _. now apply stays_ret.
Qed.

Lemma harden_other_scalar self
  mass_obj rads dens_stars dens_dm vcirc vdisp coulomb rads_hard mass_stars (h : heap) :
  E TypeError ->
  E ZeroDivisionError \/ is_py mass_stars = false ->
  scalar mass_obj -> scalar rads -> scalar dens_stars -> scalar dens_dm ->
  scalar vcirc -> scalar vdisp -> scalar coulomb -> scalar rads_hard ->
  scalar mass_stars ->
  stays (harden_other NWTG MSOL self mass_obj rads dens_stars dens_dm vcirc vdisp
           coulomb rads_hard mass_stars) h
    (fun v => scalar v /\ DF_ATTENUATED self = false) E.
Proof.
  intros T Z Sm Sr Sd1 Sd2 Sv Ss Sc Sh Sst. unfold harden_other.
  scalar_step py_add_scalar.
  destruct (DF_ATTENUATED self).
  - scalar_step py_mul_scalar.
    eapply stays_weaken; [now apply dvdt_attenuated_scalar|].
    intros _ [].
  - eapply stays_weaken; [now apply dvdt_full_scalar|].
    intros a Sa. split; [assumption|reflexivity].
Qed.

Lemma harden_scalar self sets (h : heap)
  m1 m2 rads dens_gas dens_stars dens_dm vdisp rads_hard mass_stars rads_sg :
  E TypeError ->
  E ValueError \/ policy_ok self = true ->
  E ZeroDivisionError \/ (is_py m1 && is_py m2 = false /\ is_py mass_stars = false) ->
  DF_ATTENUATED self = true \/ VISC_DISK_FLAG sets && SELF_GRAV_RAD sets = true ->
  scalar m1 -> scalar m2 -> scalar rads -> scalar dens_gas -> scalar dens_stars ->
  scalar dens_dm -> scalar vdisp -> scalar rads_hard -> scalar mass_stars ->
  scalar rads_sg ->
  stays (harden NWTG MSOL dvdt_to_dadt self sets m1 m2 rads dens_gas dens_stars
           dens_dm vdisp rads_hard mass_stars rads_sg) h never E.
Proof.
  intros T V Z Hcfg S1 S2 Sr Sdg Sds Sdd Ss Sh Sst Sg. unfold harden.
  assert (Z1 : E ZeroDivisionError \/ is_py m1 && is_py m2 = false) by tauto.
  assert (Z2 : E ZeroDivisionError \/ is_py mass_stars = false) by tauto.
  eapply stays_bind; [now apply harden_mass_obj_scalar|intros mass_obj Smo].
  eapply stays_bind; [now apply vel_circ_scalar|intros vcirc [Svc _]].
  eapply stays_bind; [now apply harden_gas_scalar|intros dvdt_g [Sdvg Hoff]].
  eapply stays_bind; [now apply harden_other_scalar|intros dvdt [Sdv Hoff']].
  destruct Hcfg; congruence.
Qed.

End ScalarFunctions.

Section ScalarFailure.

Context {F : Type} {NL : NumLib F}.

Variables NWTG MSOL : F.
Variable dvdt_to_dadt : value F -> value F -> value F -> Mon F (value F * value F).

(** C10.  On scalar arguments, Python floats or NumPy scalars, [harden]
    never returns when attenuation is configured (the default) or both
    disk flags are set: it raises and leaves the heap as it was.  The
    masked updates [dvdt_g[inds] = 0.0] and [dvdt_atten[inds] /=
    lcAtten[inds]] need an array to assign into.  With an accepted policy
    and no division between two Python floats the exception is the
    [TypeError] of the item assignment; a Python-float division by zero
    or a rejected policy can only raise earlier. *)
Theorem harden_fails_on_scalars (self : config F) (sets : settings) (h : heap F)
  (m1 m2 rads dens_gas dens_stars dens_dm vdisp rads_hard mass_stars rads_sg : value F) :
  DF_ATTENUATED self = true \/ VISC_DISK_FLAG sets && SELF_GRAV_RAD sets = true ->
  scalar m1 -> scalar m2 -> scalar rads -> scalar dens_gas -> scalar dens_stars ->
  scalar dens_dm -> scalar vdisp -> scalar rads_hard -> scalar mass_stars ->
  scalar rads_sg ->
  (exists e,
     harden NWTG MSOL dvdt_to_dadt self sets m1 m2 rads dens_gas dens_stars dens_dm
       vdisp rads_hard mass_stars rads_sg h = (Raise e, h) /\
     (e = TypeError \/ e = ZeroDivisionError \/ e = ValueError)) /\
  (policy_ok self = true ->
   is_py m1 && is_py m2 = false -> is_py mass_stars = false ->
   harden NWTG MSOL dvdt_to_dadt self sets m1 m2 rads dens_gas dens_stars dens_dm
     vdisp rads_hard mass_stars rads_sg h = (Raise TypeError, h)).
Proof.
  intros Hcfg S1 S2 Sr Sdg Sds Sdd Ss Sh Sst Sg.
  split.
  - apply stays_fails. apply harden_scalar; auto.
  - intros Hok P12 Pst.
    destruct (@stays_fails F _ _ h (fun e => e = TypeError)
                (harden_scalar NWTG MSOL dvdt_to_dadt (fun e => e = TypeError)
                   self sets h
                   eq_refl (or_intror Hok) (or_intror (conj P12 Pst)) Hcfg
                   S1 S2 Sr Sdg Sds Sdd Ss Sh Sst Sg))
      as (e & Ee & ->).
    exact Ee.
Qed.

End ScalarFailure.

(** * What a call leaves of the heap *)

Section Frames.

Context {F : Type} {NL : NumLib F}.

Local Abbreviation heap := (heap F).
Local Abbreviation M := (Mon F).

(** [m] keeps every array it finds, whether it returns or raises. *)
Definition keeps {A} (m : M A) : Prop :=
  forall h, extends h (snd (m h)).

(** [m] keeps every array it finds, and an array it returns is a new one. *)
Definition allocates (m : M (value F)) : Prop :=
  forall h, extends h (snd (m h)) /\
            forall v, fst (m h) = Ok v -> fresh h (snd (m h)) v.

(** [m] keeps the arrays below [b], from any heap that has them. *)
Definition frames {A} (b : nat) (m : M A) : Prop :=
  forall h, b <= length h ->
    b <= length (snd (m h)) /\ forall l, l < b -> load (snd (m h)) l = load h l.

(** An array at or above [b], or a scalar. *)
Definition above (b : nat) (v : value F) : Prop :=
  match v with NdArray l => b <= l | _ => True end.

Lemma allocates_keeps m : allocates m -> keeps m.
Proof. intros H h. apply H. Qed.

Lemma keeps_ret {A} (a : A) : keeps (ret a : M A).
Proof. intros h. apply extends_refl. Qed.

Lemma keeps_raise {A} e : keeps (raise e : M A).
Proof. intros h. apply extends_refl. Qed.

Lemma keeps_bind {A B} (m : M A) (k : A -> M B) :
  keeps m -> (forall a, keeps (k a)) -> keeps (bind m k).
Proof.
  intros Hm Hk h. unfold bind. specialize (Hm h).
  destruct (m h) as [[a|e] h']; simpl in *; [|assumption].
  eapply extends_trans; [exact Hm|apply Hk].
Qed.

Lemma allocates_alloc xs : allocates (alloc xs).
Proof.
  intros h. split; [apply extends_app|].
  intros v E. injection E as <-. simpl. rewrite length_app. simpl. lia.
Qed.

Lemma allocates_scalar (v : value F) : is_arr v = false -> allocates (ret v).
Proof.
  intros S h. split; [apply extends_refl|].
  intros v' E. injection E as <-. destruct v; try discriminate; exact I.
Qed.

Lemma allocates_raise e : allocates (raise e).
Proof. intros h. split; [apply extends_refl|]. intros v E. discriminate. Qed.


Lemma allocates_ufunc1 f a : allocates (ufunc1 f a).
Proof.
  intros h. unfold ufunc1. destruct (view_of h a).
  - apply (allocates_scalar (NpFloat (f x)) eq_refl).
  - apply allocates_alloc.
Qed.

Lemma allocates_ufunc2 f a b : allocates (ufunc2 f a b).
Proof.
  intros h. unfold ufunc2. destruct (view_of h a), (view_of h b).
  - apply (allocates_scalar (NpFloat (f x x0)) eq_refl).
  - apply allocates_alloc.
  - apply allocates_alloc.
  - destruct (broadcast2 f xs xs0).
    + apply allocates_alloc.
    + apply (allocates_raise ValueError).
Qed.

Lemma allocates_py_add a b : allocates (py_add a b).
Proof.
  destruct a, b; try apply allocates_ufunc2.
  now apply allocates_scalar.
Qed.

Lemma allocates_py_sub a b : allocates (py_sub a b).
Proof.
  destruct a, b; try apply allocates_ufunc2.
  now apply allocates_scalar.
Qed.

Lemma allocates_py_mul a b : allocates (py_mul a b).
Proof.
  destruct a, b; try apply allocates_ufunc2.
  now apply allocates_scalar.
Qed.

Lemma allocates_py_div a b : allocates (py_div a b).
Proof.
  destruct a, b; try apply allocates_ufunc2.
  unfold py_div. destruct (is_zero x0).
  - apply allocates_raise.
  - now apply allocates_scalar.
Qed.

Lemma allocates_py_neg a : allocates (py_neg a).
Proof.
  destruct a; try apply allocates_ufunc1.
  now apply allocates_scalar.
Qed.

Lemma allocates_bind {A} (m : M A) (k : A -> M (value F)) :
  keeps m -> (forall a, allocates (k a)) -> allocates (bind m k).
Proof.
  intros Hm Hk h. unfold bind. specialize (Hm h).
  destruct (m h) as [[a|e] h'] eqn:E; simpl in *.
  - destruct (Hk a h') as [X Fr]. split.
    + eapply extends_trans; eassumption.
    + intros v Ev. eapply fresh_mono; [exact Hm|]. now apply Fr.
  - split; [assumption|]. intros v Ev. discriminate.
Qed.

Lemma allocates_last (m : M (value F)) :
  allocates m -> allocates (v <- m ;; ret v).
Proof.
  intros Hm h. unfold bind, ret. specialize (Hm h).
  destruct (m h) as [[a|e] h']; simpl in *; exact Hm.
Qed.

Lemma keeps_py_lt a b : keeps (py_lt a b).
Proof.
  intros h. unfold py_lt.
  destruct (view_of h a), (view_of h b); simpl; try apply extends_refl.
  destruct (broadcast2 fltb xs xs0); apply extends_refl.
Qed.

Lemma keeps_py_and p q : keeps (py_and p q : M mask).
Proof.
  intros h. destruct p, q; simpl; try apply extends_refl.
  unfold py_and. destruct (broadcast2 andb bs bs0); apply extends_refl.
Qed.

Lemma frames_keeps {A} b (m : M A) : keeps m -> frames b m.
Proof.
  intros H h Hb. destruct (H h) as [L E]. split; [lia|].
  intros l Hl. apply E. lia.
Qed.


Lemma frames_bind {A B} b (m : M A) (k : A -> M B) :
  frames b m -> (forall a, frames b (k a)) -> frames b (bind m k).
Proof.
  intros Hm Hk h Hb. unfold bind. destruct (Hm h Hb) as [L E].
  destruct (m h) as [[a|e] h']; simpl in *; [|split; assumption].
  destruct (Hk a h' L) as [L' E']. split; [assumption|].
  intros l Hl. rewrite E' by assumption. now apply E.
Qed.

(** After an allocation the continuation may overwrite the new array. *)
Lemma frames_bind_alloc {B} b (m : M (value F)) (k : value F -> M B) :
  allocates m -> (forall v, above b v -> frames b (k v)) -> frames b (bind m k).
Proof.
  intros Hm Hk h Hb. unfold bind. destruct (Hm h) as [[L E] Fr].
  destruct (m h) as [[v|e] h']; simpl in *.
  - assert (Av : above b v).
    { specialize (Fr v eq_refl). destruct v; simpl in *; auto. lia. }
    destruct (Hk v Av h' ltac:(lia)) as [L' E']. split; [assumption|].
    intros l Hl. rewrite E' by assumption. apply E. lia.
  - split; [lia|]. intros l Hl. apply E. lia.
Qed.

Lemma frames_store b l xs (h : heap) :
  b <= l -> b <= length h ->
  b <= length (store l xs h) /\ forall l', l' < b -> load (store l xs h) l' = load h l'.
Proof.
  intros Hl Hb. split; [now rewrite length_store|].
  intros l' Hl'. apply load_store_other. lia.
Qed.

Lemma frames_same b (h : heap) :
  b <= length h -> b <= length h /\ forall l, l < b -> load h l = load h l.
Proof. auto. Qed.

Lemma frames_setitem b v inds c : above b v -> frames b (setitem v inds c).
Proof.
  intros Av h Hb. destruct v as [x|x|l]; simpl; try (now apply frames_same).
  simpl in Av. unfold write.
  destruct inds as [c0|bs].
  - now apply frames_store.
  - destruct (length bs =? length (load h l)); [now apply frames_store|].
    now apply frames_same.
Qed.

Lemma frames_idiv_items b v inds w : above b v -> frames b (idiv_items v inds w).
Proof.
  intros Av h Hb. destruct v as [x|x|l]; simpl.
  - now apply frames_same.
  - destruct inds, w; simpl; now apply frames_same.
  - simpl in Av. unfold write.
    destruct inds as [c|bs].
    + destruct w as [y|y|l2]; simpl; [now apply frames_same| |].
      { destruct c; [now apply frames_store|].
        destruct (load h l); [now apply frames_store|now apply frames_same]. }
      destruct (load h l2) as [|y [|y' ys]].
      * destruct (length (load h l) =? length (@nil F));
          [now apply frames_store|now apply frames_same].
      * now apply frames_store.
      * destruct (length (load h l) =? length (y :: y' :: ys));
          [now apply frames_store|now apply frames_same].
    + destruct (length bs =? length (load h l)); [|now apply frames_same].
      destruct w as [y|y|l2]; simpl; try (now apply frames_same).
      destruct (length bs =? length (load h l2)); [now apply frames_store|].
      now apply frames_same.
Qed.

End Frames.

Ltac alloc_op :=
  first [ apply allocates_ufunc1 | apply allocates_ufunc2
        | apply allocates_py_add | apply allocates_py_sub
        | apply allocates_py_mul | apply allocates_py_div
        | apply allocates_py_neg ].

Ltac alloc_chain :=
  repeat first [ apply allocates_last; alloc_op
               | apply allocates_bind; [ apply allocates_keeps; alloc_op | intro ] ].

Ltac frames_chain :=
  repeat (apply frames_bind;
          [ apply frames_keeps;
            first [ apply allocates_keeps; alloc_op
                  | apply keeps_py_lt | apply keeps_py_and ]
          | intro ]).

Section FunctionFrames.

Context {F : Type} {NL : NumLib F}.

Variables NWTG MSOL : F.
Variable dvdt_to_dadt : value F -> value F -> value F -> Mon F (value F * value F).

Lemma vel_circ_allocates m1 m2 sep : allocates (_vel_circ NWTG m1 m2 sep).
Proof. unfold _vel_circ. alloc_chain. Qed.

Lemma dvdt_full_allocates mass_obj rads dens vel_obj vdisp coul :
  allocates (_dvdt_full NWTG mass_obj rads dens vel_obj vdisp coul).
Proof. unfold _dvdt_full. alloc_chain. Qed.

Lemma dvdt_attenuated_frames b
  mass_obj rads dens vel_obj vdisp coul rads_hard mstar mass_stars :
  frames b (_dvdt_attenuated NWTG mass_obj rads dens vel_obj vdisp coul
              rads_hard mstar mass_stars).
Proof.
  unfold _dvdt_attenuated.
  apply frames_bind_alloc; [apply dvdt_full_allocates|intros dvdt_atten Av].
  frames_chain.
  apply frames_bind; [now apply frames_idiv_items|intros _].
  apply frames_keeps, keeps_ret.
Qed.

Lemma harden_gas_frames b self sets
  mass_obj rads dens_gas vcirc vdisp rads_sg coulomb :
  frames b (harden_gas NWTG self sets mass_obj rads dens_gas vcirc vdisp rads_sg
              coulomb).
Proof.
  unfold harden_gas.
  apply frames_bind; [apply frames_keeps, allocates_keeps, allocates_py_mul|intros gas_vel].
  apply frames_bind_alloc; [apply dvdt_full_allocates|intros dvdt_g Av].
  apply frames_bind; [|intros _; apply frames_keeps, keeps_ret].
  destruct (VISC_DISK_FLAG sets && SELF_GRAV_RAD sets).
  - unfold py_gt. frames_chain. now apply frames_setitem.
  - apply frames_keeps, keeps_ret.
Qed.

Lemma harden_other_frames b self
  mass_obj rads dens_stars dens_dm vcirc vdisp coulomb rads_hard mass_stars :
  frames b (harden_other NWTG MSOL self mass_obj rads dens_stars dens_dm vcirc vdisp
              coulomb rads_hard mass_stars).
Proof.
  unfold harden_other.
  apply frames_bind; [apply frames_keeps, allocates_keeps, allocates_py_add|intros d].
  destruct (DF_ATTENUATED self).
  - apply frames_bind; [apply frames_keeps, allocates_keeps, allocates_py_mul|intros ms].
    apply dvdt_attenuated_frames.
  - apply frames_keeps, allocates_keeps, dvdt_full_allocates.
Qed.

Lemma harden_mass_obj_keeps self m1 m2 : keeps (harden_mass_obj self m1 m2).
Proof.
  unfold harden_mass_obj.
  destruct (DF_WHICH_BH self =? 1)%Z; [apply keeps_ret|].
  destruct (DF_WHICH_BH self =? 2)%Z; [apply keeps_ret|].
  destruct (DF_WHICH_BH self =? 0)%Z; [|apply keeps_raise].
  apply allocates_keeps, allocates_py_add.
Qed.

(** C8.  Provided the conversion routine does not write to existing
    arrays, a call of [harden] leaves every array that existed before the
    call as it was, whatever the arguments and whether it returns or
    raises.  The two in-place updates go to arrays that [_dvdt_full]
    allocated during the call. *)
Theorem harden_keeps_inputs (self : config F) (sets : settings)
  (m1 m2 rads dens_gas dens_stars dens_dm vdisp rads_hard mass_stars rads_sg : value F)
  (h : heap F) :
  (forall r v d, keeps (dvdt_to_dadt r v d)) ->
  forall l, l < length h ->
    load (snd (harden NWTG MSOL dvdt_to_dadt self sets m1 m2 rads dens_gas
                 dens_stars dens_dm vdisp rads_hard mass_stars rads_sg h)) l
    = load h l.
Proof.
  intros Hconv.
  assert (Fr : frames (length h)
                 (harden NWTG MSOL dvdt_to_dadt self sets m1 m2 rads dens_gas
                    dens_stars dens_dm vdisp rads_hard mass_stars rads_sg)).
  { unfold harden.
    apply frames_bind; [apply frames_keeps, harden_mass_obj_keeps|intros mass_obj].
    apply frames_bind;
      [apply frames_keeps, allocates_keeps, vel_circ_allocates|intros vcirc].
    apply frames_bind; [apply harden_gas_frames|intros dvdt_g].
    apply frames_bind; [apply harden_other_frames|intros dvdt].
    apply frames_bind; [apply frames_keeps, Hconv|intros [dadt tau]].
    apply frames_bind; [apply frames_keeps, Hconv|intros [dadt_g tau_g]].
    apply frames_keeps, keeps_ret. }
  apply (Fr h (le_n _)).
Qed.

End FunctionFrames.

(** * Two calls in a row *)

Section Determinism.

Context {F : Type} {NL : NumLib F}.

Local Abbreviation heap := (heap F).
Local Abbreviation M := (Mon F).

(** What a caller can observe of a value: its kind and its numbers. *)
Inductive content : Type :=
| CPy (x : F)
| CNp (x : F)
| CArr (xs : list F).

Definition content_of (h : heap) (v : value F) : content :=
  match v with
  | PyFloat x => CPy x
  | NpFloat x => CNp x
  | NdArray l => CArr (load h l)
  end.

Definition valid (h : heap) (v : value F) : Prop :=
  match v with NdArray l => l < length h | _ => True end.

(** Two outcomes a caller cannot tell apart: the same exception, or pairs
    of results with the same contents. *)
Definition same_outcome (o1 o2 : result (value F * value F) * heap) : Prop :=
  match fst o1, fst o2 with
  | Ok (a1, b1), Ok (a2, b2) =>
      content_of (snd o1) a1 = content_of (snd o2) a2 /\
      content_of (snd o1) b1 = content_of (snd o2) b2
  | Raise e1, Raise e2 => e1 = e2
  | _, _ => False
  end.

(** What the theorem asks of the conversion routine: it writes to no
    existing array, returns allocated arrays, and its outcome is a function
    of the contents of its arguments. *)
Record pure_routine (f : value F -> value F -> value F -> M (value F * value F))
  : Prop := {
  routine_keeps : forall r v d, keeps (f r v d);
  routine_valid : forall r v d h a t,
    valid h r -> valid h v -> valid h d ->
    fst (f r v d h) = Ok (a, t) ->
    valid (snd (f r v d h)) a /\ valid (snd (f r v d h)) t;
  routine_deterministic : forall r v d h r' v' d' h',
    valid h r -> valid h v -> valid h d ->
    valid h' r' -> valid h' v' -> valid h' d' ->
    content_of h r = content_of h' r' ->
    content_of h v = content_of h' v' ->
    content_of h d = content_of h' d' ->
    same_outcome (f r v d h) (f r' v' d' h')
}.

Lemma content_extends h h' v :
  extends h h' -> valid h v -> content_of h' v = content_of h v.
Proof.
  intros [L E] V. destruct v as [x|x|l]; simpl in *; auto.
  now rewrite E.
Qed.

Lemma valid_extends h h' v : extends h h' -> valid h v -> valid h' v.
Proof. intros [L E] V. destruct v; simpl in *; auto. lia. Qed.

Lemma shaped_valid n h v : shaped n h v -> valid h v.
Proof. destruct v; simpl; auto. tauto. Qed.

(** An array is determined by its length and its elements. *)
Lemma holds_content n h h' v v' P :
  holds n h v P -> holds n h' v' P -> is_arr v = true -> is_arr v' = true ->
  content_of h v = content_of h' v'.
Proof.
  intros [S V] [S' V'] A A'.
  destruct v as [x|x|l]; try discriminate.
  destruct v' as [x'|x'|l']; try discriminate.
  simpl in *. f_equal.
  destruct S as [_ Ln], S' as [_ Ln'].
  apply nth_ext with (d := lit 0) (d' := lit 0); [congruence|].
  intros i Hi. rewrite V, V' by lia. reflexivity.
Qed.

End Determinism.

Arguments content_extends {F} [h h' v] _ _.
Arguments valid_extends {F} [h h' v] _ _.
Arguments shaped_valid {F} [n h v] _.
Arguments holds_content {F NL} [n h h' v v' P] _ _ _ _.

Section TwoCalls.

Context {F : Type} {NL : NumLib F}.

Local Abbreviation heap := (heap F).

Variables NWTG MSOL : F.
Variable dvdt_to_dadt : value F -> value F -> value F -> Mon F (value F * value F).
Hypothesis routine : pure_routine dvdt_to_dadt.

Lemma harden_convert_keeps rads vcirc dvdt dvdt_g :
  keeps (harden_convert dvdt_to_dadt rads vcirc dvdt dvdt_g).
Proof.
  unfold harden_convert.
  apply keeps_bind; [apply routine|intros [dadt tau]].
  apply keeps_bind; [apply routine|intros [dadt_g tau_g]].
  apply keeps_ret.
Qed.

Lemma harden_convert_same (h1 h2 : heap) rads vc dv dg rads' vc' dv' dg' :
  valid h1 rads -> valid h1 vc -> valid h1 dv -> valid h1 dg ->
  valid h2 rads' -> valid h2 vc' -> valid h2 dv' -> valid h2 dg' ->
  content_of h1 rads = content_of h2 rads' ->
  content_of h1 vc = content_of h2 vc' ->
  content_of h1 dv = content_of h2 dv' ->
  content_of h1 dg = content_of h2 dg' ->
  same_outcome (harden_convert dvdt_to_dadt rads vc dv dg h1)
               (harden_convert dvdt_to_dadt rads' vc' dv' dg' h2).
Proof.
  intros Vr Vv Vd Vg Vr' Vv' Vd' Vg' Cr Cv Cd Cg.
  unfold harden_convert, bind.
  pose proof (routine_deterministic routine rads vc dv h1 rads' vc' dv' h2
                Vr Vv Vd Vr' Vv' Vd' Cr Cv Cd) as D1.
  pose proof (routine_keeps routine rads vc dv h1) as K1.
  pose proof (routine_keeps routine rads' vc' dv' h2) as K2.
  pose proof (routine_valid routine rads vc dv h1) as W1.
  pose proof (routine_valid routine rads' vc' dv' h2) as W2.
  destruct (dvdt_to_dadt rads vc dv h1) as [[[a1 t1]|e1] hb1];
    destruct (dvdt_to_dadt rads' vc' dv' h2) as [[[a2 t2]|e2] hb2];
    unfold same_outcome in D1; simpl in *; try contradiction; [|exact D1].
  destruct D1 as [Ca _].
  destruct (W1 a1 t1 Vr Vv Vd eq_refl) as [Wa1 _].
  destruct (W2 a2 t2 Vr' Vv' Vd' eq_refl) as [Wa2 _].
  assert (D2 : same_outcome (dvdt_to_dadt rads vc dg hb1)
                            (dvdt_to_dadt rads' vc' dg' hb2)).
  { apply (routine_deterministic routine);
      try (eapply valid_extends; eassumption).
    - rewrite (content_extends K1 Vr), (content_extends K2 Vr'). exact Cr.
    - rewrite (content_extends K1 Vv), (content_extends K2 Vv'). exact Cv.
    - rewrite (content_extends K1 Vg), (content_extends K2 Vg'). exact Cg. }
  pose proof (routine_keeps routine rads vc dg hb1) as K3.
  pose proof (routine_keeps routine rads' vc' dg' hb2) as K4.
  destruct (dvdt_to_dadt rads vc dg hb1) as [[[g1 u1]|e1] hc1];
    destruct (dvdt_to_dadt rads' vc' dg' hb2) as [[[g2 u2]|e2] hc2];
    unfold same_outcome in D2 |- *; simpl in *; try contradiction; [|exact D2].
  destruct D2 as [Cg' _]. split; [|exact Cg'].
  rewrite (content_extends K3 Wa1), (content_extends K4 Wa2). exact Ca.
Qed.

(** C9.  With a conversion routine that is itself a function of the
    contents of its arguments, two calls of [harden] in a row on the same
    arguments end the same way: the same exception, or two pairs of
    results with the same kinds and the same numbers.  The second call
    starts from the heap the first one left, so nothing the first call
    did is visible to the second. *)
Theorem harden_deterministic n (h : heap) (self : config F) (sets : settings)
  (m1 m2 rads dens_gas dens_stars dens_dm vdisp rads_hard mass_stars rads_sg : value F) :
  shaped n h m1 -> shaped n h m2 -> shaped n h rads ->
  shaped n h dens_gas -> shaped n h dens_stars -> shaped n h dens_dm ->
  shaped n h vdisp -> shaped n h rads_hard -> shaped n h mass_stars ->
  shaped n h rads_sg ->
  policy_ok self = true ->
  is_arr rads = true ->
  is_py m1 && is_py m2 = false ->
  (DF_ATTENUATED self = true -> is_py mass_stars = false) ->
  let call := harden NWTG MSOL dvdt_to_dadt self sets m1 m2 rads dens_gas
                dens_stars dens_dm vdisp rads_hard mass_stars rads_sg in
  same_outcome (call h) (call (snd (call h))).
Proof.
  intros S1 S2 Sr Sdg Sds Sdd Ss Sh Sst Sg Hok Harr Hpy Hatt call.
  destruct (harden_runs NWTG MSOL dvdt_to_dadt self sets
              (holds_self S1) (holds_self S2) (holds_self Sr) (holds_self Sdg)
              (holds_self Sds) (holds_self Sdd) (holds_self Ss) (holds_self Sh)
              (holds_self Sst) (holds_self Sg) Hok (fun _ => Harr) Hpy Hatt)
    as (h1 & vc & dv & dg & E1 & X1 & Rvc & Rdv & Rdg).
  fold call in E1.
  set (ha := snd (call h)).
  assert (Xa : extends h ha).
  { unfold ha. rewrite E1. eapply extends_trans; [exact X1|].
    apply harden_convert_keeps. }
  destruct (harden_runs NWTG MSOL dvdt_to_dadt self sets
              (holds_extends Xa (holds_self S1)) (holds_extends Xa (holds_self S2))
              (holds_extends Xa (holds_self Sr)) (holds_extends Xa (holds_self Sdg))
              (holds_extends Xa (holds_self Sds)) (holds_extends Xa (holds_self Sdd))
              (holds_extends Xa (holds_self Ss)) (holds_extends Xa (holds_self Sh))
              (holds_extends Xa (holds_self Sst)) (holds_extends Xa (holds_self Sg))
              Hok (fun _ => Harr) Hpy Hatt)
    as (h2 & vc' & dv' & dg' & E2 & X2 & Rvc' & Rdv' & Rdg').
  fold call in E2. rewrite E2, E1.
  destruct Rvc as (_ & Hvc & Avc), Rdv as (_ & Hdv & Adv),
           Rdg as (_ & Hdg & Adg).
  destruct Rvc' as (_ & Hvc' & Avc'), Rdv' as (_ & Hdv' & Adv'),
           Rdg' as (_ & Hdg' & Adg').
  specialize (Avc Harr). specialize (Adv Harr). specialize (Adg Harr).
  specialize (Avc' Harr). specialize (Adv' Harr). specialize (Adg' Harr).
  assert (Vr : valid h rads) by (eapply shaped_valid; eassumption).
  assert (X12 : extends h h2) by (eapply extends_trans; eassumption).
  apply harden_convert_same;
    try (eapply shaped_valid; first [apply Hvc | apply Hdv | apply Hdg
                                    | apply Hvc' | apply Hdv' | apply Hdg']).
  - eapply valid_extends; eassumption.
  - eapply valid_extends; eassumption.
  - rewrite (content_extends X1 Vr), (content_extends X12 Vr). reflexivity.
  - eapply holds_content; eassumption.
  - eapply holds_content; eassumption.
  - eapply holds_content; eassumption.
Qed.

End TwoCalls.

(** * A conversion routine to run the module with *)

Section SampleRoutine.

Context {F : Type} {NL : NumLib F}.

Local Abbreviation heap := (heap F).
Local Abbreviation M := (Mon F).

(** A routine of the interface of [dvdt_to_dadt]: from the separation, the
    circular velocity and the deceleration, the time [vels / dvdt] and the
    rate [rads / tau].  It stands in for the routine of the package where
    a closed example needs one. *)
Definition sample_dvdt_to_dadt (rads vels dvdt : value F) : M (value F * value F) :=
  tau <- py_div vels dvdt ;;
  dadt <- py_div rads tau ;;
  ret (dadt, tau).

Definition same_result (o1 o2 : result (value F) * heap) : Prop :=
  match fst o1, fst o2 with
  | Ok v, Ok v' => content_of (snd o1) v = content_of (snd o2) v'
  | Raise e, Raise e' => e = e'
  | _, _ => False
  end.


Lemma same_result_alloc (h h' : heap) xs :
  same_result (alloc xs h) (alloc xs h').
Proof. unfold same_result, alloc. simpl. now rewrite !load_app_new. Qed.

Lemma ufunc2_det f a b (h : heap) a' b' (h' : heap) :
  content_of h a = content_of h' a' -> content_of h b = content_of h' b' ->
  same_result (ufunc2 f a b h) (ufunc2 f a' b' h').
Proof.
  intros Ca Cb. unfold ufunc2.
  destruct a as [x|x|l], a' as [x'|x'|l']; try discriminate;
    destruct b as [y|y|k], b' as [y'|y'|k']; try discriminate;
    simpl in *;
    try (injection Ca as ->); try (injection Cb as ->);
    try reflexivity; try apply same_result_alloc.
  destruct (broadcast2 f (load h' l') (load h' k')).
  - apply same_result_alloc.
  - reflexivity.
Qed.

Lemma py_div_det a b (h : heap) a' b' (h' : heap) :
  content_of h a = content_of h' a' -> content_of h b = content_of h' b' ->
  same_result (py_div a b h) (py_div a' b' h').
Proof.
  intros Ca Cb.
  destruct a as [x|x|l], a' as [x'|x'|l']; try discriminate;
    destruct b as [y|y|k], b' as [y'|y'|k']; try discriminate;
    try (now apply ufunc2_det).
  simpl in *. injection Ca as ->. injection Cb as ->.
  unfold py_div. destruct (is_zero y'); reflexivity.
Qed.

Lemma allocates_valid (m : M (value F)) h v :
  allocates m -> fst (m h) = Ok v -> valid (snd (m h)) v.
Proof.
  intros Hm E. destruct (Hm h) as [_ Fr]. specialize (Fr v E).
  destruct v; simpl in *; auto. lia.
Qed.

Lemma sample_routine_pure : pure_routine sample_dvdt_to_dadt.
Proof.
  split.
  - intros r v d. unfold sample_dvdt_to_dadt.
    apply keeps_bind; [apply allocates_keeps, allocates_py_div|intros tau].
    apply keeps_bind; [apply allocates_keeps, allocates_py_div|intros dadt].
    apply keeps_ret.
  - intros r v d h a t Vr Vv Vd. unfold sample_dvdt_to_dadt, bind.
    pose proof (@allocates_valid (py_div v d) h) as W1.
    pose proof (allocates_py_div v d h) as [X1 _].
    destruct (py_div v d h) as [[tau|e] h1]; simpl in *; [|discriminate].
    specialize (W1 tau (allocates_py_div v d) eq_refl).
    pose proof (@allocates_valid (py_div r tau) h1) as W2.
    pose proof (allocates_py_div r tau h1) as [X2 _].
    destruct (py_div r tau h1) as [[dadt|e] h2]; simpl in *; [|discriminate].
    specialize (W2 dadt (allocates_py_div r tau) eq_refl).
    intros E. injection E as <- <-. split; [exact W2|].
    eapply valid_extends; eassumption.
  - intros r v d h r' v' d' h' Vr Vv Vd Vr' Vv' Vd' Cr Cv Cd.
    unfold sample_dvdt_to_dadt, bind.
    pose proof (py_div_det v d h v' d' h' Cv Cd) as D1.
    pose proof (@allocates_valid (py_div v d) h) as W1.
    pose proof (@allocates_valid (py_div v' d') h') as W1'.
    pose proof (allocates_py_div v d h) as [X1 _].
    pose proof (allocates_py_div v' d' h') as [X1' _].
    destruct (py_div v d h) as [[tau|e] h1];
      destruct (py_div v' d' h') as [[tau'|e'] h1'];
      unfold same_result in D1; simpl in *; try contradiction; [|exact D1].
    specialize (W1 tau (allocates_py_div v d) eq_refl).
    specialize (W1' tau' (allocates_py_div v' d') eq_refl).
    assert (Cr1 : content_of h1 r = content_of h1' r')
      by (rewrite (content_extends X1 Vr), (content_extends X1' Vr'); exact Cr).
    pose proof (py_div_det r tau h1 r' tau' h1' Cr1 D1) as D2.
    pose proof (allocates_py_div r tau h1) as [X2 _].
    pose proof (allocates_py_div r' tau' h1') as [X2' _].
    destruct (py_div r tau h1) as [[dadt|e] h2];
      destruct (py_div r' tau' h1') as [[dadt'|e'] h2'];
      unfold same_result in D2; unfold same_outcome; simpl in *;
      try contradiction; [|exact D2].
    split; [exact D2|].
    rewrite (content_extends X2 W1), (content_extends X2' W1'). exact D1.
Qed.

End SampleRoutine.

(** * Running the module on symbolic numbers *)

(** Numbers as the expressions that compute them.  With this library a
    call of the module evaluates, and its result shows every operation of
    the source in the order the source performs it.  Comparisons and the
    zero test are decided on literals. *)
Inductive term : Type :=
| Lit (z : Z)
| Sym (name : string)
| Add (s t : term)
| Sub (s t : term)
| Mul (s t : term)
| Div (s t : term)
| Neg (t : term)
| Sqrt (t : term)
| Square (t : term)
| Exp (t : term)
| Log (t : term)
| Fabs (t : term)
| Maximum (s t : term)
| Erf (t : term).

Definition term_ltb (s t : term) : bool :=
  match s, t with
  | Lit a, Lit b => (a <? b)%Z
  | _, _ => false
  end.

Definition term_is_zero (t : term) : bool :=
  match t with
  | Lit 0 => true
  | _ => false
  end.

#[export] Instance SymLib : NumLib term := {|
  lit := Lit;
  np_pi := Sym "pi";
  fadd := Add;
  fsub := Sub;
  fmul := Mul;
  fdiv := Div;
  fneg := Neg;
  fltb := term_ltb;
  is_zero := term_is_zero;
  np_sqrt := Sqrt;
  np_square := Square;
  np_exp := Exp;
  np_log := Log;
  np_fabs := Fabs;
  np_maximum := Maximum;
  sp_erf := Erf
|}.

Section SymbolicRuns.

Let G : term := Sym "G".
Let Msun : term := Sym "MSOL".

Let class_attributes : config term := {|
  DF_WHICH_BH := 2;
  COULOMB_LOGARITHM := Lit 15;
  DF_ATTENUATED := true;
  GAS_VEL_SOFT := Lit 1;
  MSTAR := Sym "0.6";
  SELF_GRAV_RAD_MULT := Lit 1
|}.

Let both_flags : settings := {| VISC_DISK_FLAG := true; SELF_GRAV_RAD := true |}.

Let no_flags : settings := {| VISC_DISK_FLAG := false; SELF_GRAV_RAD := false |}.

(** [_vel_circ] on NumPy scalars. *)
Example vel_circ_runs :
  _vel_circ G (NpFloat (Sym "m1")) (NpFloat (Sym "m2")) (NpFloat (Sym "sep")) []
  = (Ok (NpFloat
           (Div (Sqrt (Div (Mul G (Add (Sym "m1") (Sym "m2"))) (Sym "sep")))
                (Add (Lit 1) (Div (Sym "m2") (Sym "m1"))))),
     []).
Proof. reflexivity. Qed.

(** [_vel_circ] on Python floats: the quotient [m2 / m1] is Python's. *)
Example vel_circ_zero_division :
  _vel_circ G (PyFloat (Lit 0)) (PyFloat (Lit 1)) (PyFloat (Lit 1)) []
  = (Raise ZeroDivisionError, []).
Proof. reflexivity. Qed.

(** [_dvdt_full] on NumPy scalars. *)
Example dvdt_full_runs :
  _dvdt_full G (NpFloat (Sym "m")) (NpFloat (Sym "r")) (NpFloat (Sym "rho"))
    (NpFloat (Sym "v")) (NpFloat (Sym "s")) (PyFloat (Lit 15)) []
  = (Ok (NpFloat
           (let velf := Div (Sym "v") (Mul (Sym "s") (Sqrt (Lit 2))) in
            Mul (Mul (Mul (Mul (Mul (Lit (-4)) (Sym "pi")) (Square G))
                          (Div (Mul (Sym "m") (Sym "rho")) (Square (Sym "v"))))
                     (Fabs (Sub (Erf velf)
                                (Mul (Div (Mul (Lit 2) velf) (Sqrt (Sym "pi")))
                                     (Exp (Neg (Square velf)))))))
                (Lit 15))),
     []).
Proof. vm_compute. reflexivity. Qed.

(** The gas drag of [harden], lines 82-89, on arrays of two elements with
    separations 1 and 3 and a self-gravity radius of 2: the element at
    separation 1 is the one set to zero. *)
Example harden_gas_runs :
  let h : heap term := [[Lit 1; Lit 3]; [Lit 2; Lit 2]; [Sym "a"; Sym "b"]] in
  match harden_gas G class_attributes both_flags
          (NdArray 2) (NdArray 0) (NdArray 2) (NdArray 2) (NdArray 2) (NdArray 1)
          (PyFloat (Lit 15)) h with
  | (Ok (NdArray l), h') =>
      nth 0 (load h' l) (Lit 0) = Lit 0 /\
      nth 1 (load h' l) (Lit 0)
      = dvdt_full_elt G (Sym "b") (Sym "b") (Sym "b") (Mul (Sym "b") (Lit 1)) (Lit 15) /\
      firstn 3 h' = h
  | _ => False
  end.
Proof. vm_compute. repeat split. Qed.

(** [harden] on Python floats stops at the masked update. *)
Example harden_scalar_runs :
  harden G Msun sample_dvdt_to_dadt class_attributes no_flags
    (PyFloat (Lit 9)) (PyFloat (Lit 7)) (PyFloat (Lit 1)) (PyFloat (Lit 1))
    (PyFloat (Lit 1)) (PyFloat (Lit 1)) (PyFloat (Lit 2)) (PyFloat (Lit 1))
    (PyFloat (Lit 6)) (PyFloat (Lit 0)) []
  = (Raise TypeError, []).
Proof. vm_compute. reflexivity. Qed.

End SymbolicRuns.

(** * The theorems at concrete arguments *)

Section Examples.

Local Open Scope R_scope.

(** Two arrays of one element, [1.0] and [2.0]. *)
Definition two_cells : heap R := [[1]; [2]].

(** The arrays [0.0] and [1.0]: a zero velocity, a zero stellar mass. *)
Definition zero_cell : heap R := [[0]; [1]].

Definition disk_on : settings := {| VISC_DISK_FLAG := true; SELF_GRAV_RAD := true |}.

Definition policy_3 : config R := {|
  DF_WHICH_BH := 3;
  COULOMB_LOGARITHM := 15;
  DF_ATTENUATED := true;
  GAS_VEL_SOFT := 1;
  MSTAR := 6 / 10;
  SELF_GRAV_RAD_MULT := 1
|}.


(** [harden_policy] at the default policy, 2, for the masses 1 and 2, and
    at a policy of 3. *)
Lemma harden_policy_witness :
  harden 1 1 sample_dvdt_to_dadt Dynamical_Friction disk_on
    (NdArray 0) (NdArray 1) (NdArray 0) (NdArray 0) (NdArray 0) (NdArray 0)
    (NdArray 0) (NdArray 1) (NdArray 0) (NdArray 1) two_cells
  = (vcirc <- _vel_circ 1 (NdArray 0) (NdArray 1) (NdArray 0) ;;
     dvdt_g <- harden_gas 1 Dynamical_Friction disk_on (NdArray 1) (NdArray 0)
                 (NdArray 0) vcirc (NdArray 0) (NdArray 1) (PyFloat 15) ;;
     dvdt <- harden_other 1 1 Dynamical_Friction (NdArray 1) (NdArray 0) (NdArray 0)
               (NdArray 0) vcirc (NdArray 0) (PyFloat 15) (NdArray 1) (NdArray 0) ;;
     harden_convert sample_dvdt_to_dadt (NdArray 0) vcirc dvdt dvdt_g) two_cells /\
  harden 1 1 sample_dvdt_to_dadt policy_3 disk_on
    (NdArray 0) (NdArray 1) (NdArray 0) (NdArray 0) (NdArray 0) (NdArray 0)
    (NdArray 0) (NdArray 1) (NdArray 0) (NdArray 1) two_cells
  = (Raise ValueError, two_cells) /\
  exists h1 vcirc dvdt dvdt_g,
    harden 1 1 sample_dvdt_to_dadt Dynamical_Friction disk_on
      (NdArray 0) (NdArray 1) (NdArray 0) (NdArray 0) (NdArray 0) (NdArray 0)
      (NdArray 0) (NdArray 1) (NdArray 0) (NdArray 1) two_cells
    = harden_convert sample_dvdt_to_dadt (NdArray 0) vcirc dvdt dvdt_g h1 /\
    elt h1 dvdt 0 =
      harden_other_elt 1 1 Dynamical_Friction 2 1 1 1 (elt h1 vcirc 0) 1 15 2 1.
Proof.
  pose proof (@harden_policy R RealLib 1 1 sample_dvdt_to_dadt Dynamical_Friction
                disk_on (NdArray 0) (NdArray 1) (NdArray 0) (NdArray 0) (NdArray 0)
                (NdArray 0) (NdArray 0) (NdArray 1) (NdArray 0) (NdArray 1) two_cells)
    as (_ & P2 & _ & _ & P).
  pose proof (@harden_policy R RealLib 1 1 sample_dvdt_to_dadt policy_3
                disk_on (NdArray 0) (NdArray 1) (NdArray 0) (NdArray 0) (NdArray 0)
                (NdArray 0) (NdArray 0) (NdArray 1) (NdArray 0) (NdArray 1) two_cells)
    as (_ & _ & _ & P3 & _).
  split; [exact (P2 eq_refl)|]. split; [exact (P3 eq_refl)|].
  destruct (P 1%nat) as (h1 & vcirc & dvdt & dvdt_g & E & V);
    try (split; [simpl; lia | reflexivity]); try reflexivity.
  exists h1, vcirc, dvdt, dvdt_g. split; [exact E|].
  destruct (V 0%nat ltac:(lia)) as [_ Vd]. exact Vd.
Defined.

(** [dvdt_full_is_chandrasekhar] on arrays of one element. *)
Lemma dvdt_full_is_chandrasekhar_witness :
  exists v h',
    _dvdt_full 1 (NdArray 0) (NdArray 1) (NdArray 0) (NdArray 1) (NdArray 0)
      (PyFloat 15) two_cells = (Ok v, h') /\
    extends two_cells h' /\ shaped 1 h' v /\
    forall i, (i < 1)%nat ->
      elt h' v i =
      chandrasekhar 1 (elt two_cells (NdArray 0) i) (elt two_cells (NdArray 0) i)
        (elt two_cells (NdArray 1) i) (elt two_cells (NdArray 0) i)
        (elt two_cells (PyFloat 15) i).
Proof.
  apply (@dvdt_full_is_chandrasekhar 1 1%nat two_cells (NdArray 0) (NdArray 1)
           (NdArray 0) (NdArray 1) (NdArray 0) (PyFloat 15));
    first [ exact I | split; [simpl; lia | reflexivity] ].
Defined.

Lemma two_cells_positive l : positive two_cells (NdArray l).
Proof.
  intros x. destruct l as [|[|l]]; simpl; unfold load; simpl.
  - intros [<-|[]]. lra.
  - intros [<-|[]]. lra.
  - destruct l; intros [].
Qed.

(** [vel_circ_properties] for equal masses 1 at separation 2, [G = 1]. *)
Lemma vel_circ_properties_witness :
  (exists v h',
     _vel_circ 1 (NdArray 0) (NdArray 0) (NdArray 1) two_cells = (Ok v, h') /\
     extends two_cells h' /\ shaped 1 h' v /\
     forall i, (i < 1)%nat ->
       elt h' v i =
       sqrt (1 * (elt two_cells (NdArray 0) i + elt two_cells (NdArray 0) i)
             / elt two_cells (NdArray 1) i)
       / (1 + elt two_cells (NdArray 0) i / elt two_cells (NdArray 0) i)) /\
  (forall a b r (h0 : heap R),
     _vel_circ 1 (NpFloat a) (NpFloat b) (NpFloat r) h0
     = (Ok (NpFloat (vel_circ_elt 1 a b r)), h0)) /\
  (forall a b r1 r2, 0 < a -> 0 < b -> 0 < r1 -> r1 < r2 ->
     vel_circ_elt 1 a b r2 < vel_circ_elt 1 a b r1) /\
  (forall a r, vel_circ_elt 1 a 0 r = sqrt (1 * a / r)).
Proof.
  apply (@vel_circ_properties 1 1%nat two_cells (NdArray 0) (NdArray 0) (NdArray 1));
    first [ lra | apply two_cells_positive | split; [simpl; lia | reflexivity] ].
Defined.

(** [harden_computes] with both disk flags set, a separation of 1 inside a
    self-gravity radius of 2: the gas deceleration is cut to zero. *)
Lemma harden_computes_witness :
  exists h1 vcirc dvdt dvdt_g,
    harden 1 1 sample_dvdt_to_dadt Dynamical_Friction disk_on
      (NdArray 0) (NdArray 0) (NdArray 0) (NdArray 0) (NdArray 0) (NdArray 0)
      (NdArray 0) (NdArray 1) (NdArray 0) (NdArray 1) two_cells
    = harden_convert sample_dvdt_to_dadt (NdArray 0) vcirc dvdt dvdt_g h1 /\
    extends two_cells h1 /\
    elt h1 dvdt_g 0 = 0.
Proof.
  destruct (@harden_computes R RealLib 1 1 sample_dvdt_to_dadt 1%nat two_cells
              Dynamical_Friction disk_on
              (NdArray 0) (NdArray 0) (NdArray 0) (NdArray 0) (NdArray 0) (NdArray 0)
              (NdArray 0) (NdArray 1) (NdArray 0) (NdArray 1))
    as (h1 & vcirc & dvdt & dvdt_g & E & X & _ & _ & _ & V);
    try (split; [simpl; lia | reflexivity]); try reflexivity.
  exists h1, vcirc, dvdt, dvdt_g. split; [exact E|]. split; [exact X|].
  destruct (V 0%nat ltac:(lia)) as (_ & Vg & _). rewrite Vg.
  assert (E0 : elt two_cells (NdArray 0) 0 = 1) by reflexivity.
  assert (E1 : elt two_cells (NdArray 1) 0 = 2) by reflexivity.
  rewrite E0, E1. unfold gas_cut. cbn [VISC_DISK_FLAG SELF_GRAV_RAD disk_on andb].
  cbn [fltb lit RealLib].
  assert (L1 : Rltb 1 2 = true) by (apply Rltb_true; lra).
  assert (L2 : Rltb 0 2 = true) by (apply Rltb_true; lra).
  rewrite L1, L2. reflexivity.
Defined.

(** [degenerate_inputs_unguarded] at a velocity of zero and a stellar mass
    of zero. *)
Lemma degenerate_inputs_unguarded_witness :
  (exists v h',
     _dvdt_full 1 (NdArray 1) (NdArray 0) (NdArray 1) (NdArray 0) (NdArray 1)
       (PyFloat 15) zero_cell = (Ok v, h')) /\
  (exists v h',
     _dvdt_attenuated 1 (NdArray 1) (NdArray 0) (NdArray 1) (NdArray 0) (NdArray 1)
       (PyFloat 15) (NdArray 1) (PyFloat 1) (NdArray 0) zero_cell = (Ok v, h')).
Proof.
  destruct (@degenerate_inputs_unguarded R RealLib 1 1%nat zero_cell
              (NdArray 1) (NdArray 0) (NdArray 1) (NdArray 0) (NdArray 1)
              (PyFloat 15) (NdArray 1) (PyFloat 1) (NdArray 0))
    as [(v & h' & E & _) A];
    try (split; [simpl; lia | reflexivity]); try exact I.
  split.
  - exists v, h'. exact E.
  - destruct (A eq_refl eq_refl) as (va & ha & Ea & _); [left; reflexivity|].
    exists va, ha. exact Ea.
Defined.

(** [harden_keeps_inputs] for the first array of [two_cells]. *)
Lemma harden_keeps_inputs_witness :
  load (snd (harden 1 1 sample_dvdt_to_dadt Dynamical_Friction disk_on
               (NdArray 0) (NdArray 0) (NdArray 0) (NdArray 0) (NdArray 0)
               (NdArray 0) (NdArray 0) (NdArray 1) (NdArray 0) (NdArray 1)
               two_cells)) 0%nat
  = load two_cells 0%nat.
Proof.
  apply (@harden_keeps_inputs R RealLib 1 1 sample_dvdt_to_dadt Dynamical_Friction
           disk_on
           (NdArray 0) (NdArray 0) (NdArray 0) (NdArray 0) (NdArray 0)
           (NdArray 0) (NdArray 0) (NdArray 1) (NdArray 0) (NdArray 1) two_cells).
  - apply sample_routine_pure.
  - simpl. lia.
Defined.

(** [harden_deterministic] with the sample routine. *)
Lemma harden_deterministic_witness :
  let call := harden 1 1 sample_dvdt_to_dadt Dynamical_Friction disk_on
                (NdArray 0) (NdArray 0) (NdArray 0) (NdArray 0) (NdArray 0)
                (NdArray 0) (NdArray 0) (NdArray 1) (NdArray 0) (NdArray 1) in
  same_outcome (call two_cells) (call (snd (call two_cells))).
Proof.
  apply (@harden_deterministic R RealLib 1 1 sample_dvdt_to_dadt sample_routine_pure
           1%nat two_cells Dynamical_Friction disk_on
           (NdArray 0) (NdArray 0) (NdArray 0) (NdArray 0) (NdArray 0)
           (NdArray 0) (NdArray 0) (NdArray 1) (NdArray 0) (NdArray 1));
    first [ reflexivity | split; [simpl; lia | reflexivity] ].
Defined.

(** [harden_fails_on_scalars] on NumPy scalars, default configuration. *)
Lemma harden_fails_on_scalars_witness :
  harden 1 1 sample_dvdt_to_dadt Dynamical_Friction disk_on
    (NpFloat 1) (NpFloat 1) (NpFloat 1) (NpFloat 1) (NpFloat 1) (NpFloat 1)
    (NpFloat 1) (NpFloat 1) (NpFloat 1) (NpFloat 1) two_cells
  = (Raise TypeError, two_cells).
Proof.
  apply (@harden_fails_on_scalars R RealLib 1 1 sample_dvdt_to_dadt
           Dynamical_Friction disk_on two_cells
           (NpFloat 1) (NpFloat 1) (NpFloat 1) (NpFloat 1) (NpFloat 1) (NpFloat 1)
           (NpFloat 1) (NpFloat 1) (NpFloat 1) (NpFloat 1));
    first [ reflexivity | left; reflexivity ].
Defined.

End Examples.

(** * Further properties of the helper functions *)

(** ** Shapes that do not broadcast *)

Section ShapeErrors.

Context {F : Type} {NL : NumLib F}.

Variables NWTG MSOL : F.
Variable dvdt_to_dadt : value F -> value F -> value F -> Mon F (value F * value F).

Lemma broadcast2_mismatch {A B C} (f : A -> B -> C) xs ys :
  length xs <> length ys -> length xs <> 1 -> length ys <> 1 ->
  broadcast2 f xs ys = None.
Proof.
  intros Hne Hx Hy. unfold broadcast2.
  destruct xs as [|x [|x' xs]]; simpl in *; try lia;
    destruct ys as [|y [|y' ys]]; simpl in *; try lia.
  all: try reflexivity.
  match goal with
  | |- context [?a =? ?b] => destruct (a =? b) eqn:E; [|reflexivity]
  end.
  apply Nat.eqb_eq in E. lia.
Qed.

Lemma ufunc2_mismatch (f : F -> F -> F) l1 l2 (h : heap F) :
  length (load h l1) <> length (load h l2) ->
  length (load h l1) <> 1 -> length (load h l2) <> 1 ->
  ufunc2 f (NdArray l1) (NdArray l2) h = (Raise ValueError, h).
Proof.
  intros Hne H1 H2. unfold ufunc2. simpl.
  now rewrite broadcast2_mismatch.
Qed.

(** X1.  Mass arrays whose lengths differ, neither of them 1, do not
    broadcast: [_vel_circ] raises [ValueError] at its first line,
    [mtot = m1 + m2], and so does [harden], under every policy and
    whatever the other eight arguments are.  The heap is as it was: no
    array has been allocated. *)
Theorem mismatched_masses_raise (self : config F) (sets : settings)
  (l1 l2 : loc)
  (rads dens_gas dens_stars dens_dm vdisp rads_hard mass_stars rads_sg : value F)
  (h : heap F) :
  length (load h l1) <> length (load h l2) ->
  length (load h l1) <> 1 -> length (load h l2) <> 1 ->
  _vel_circ NWTG (NdArray l1) (NdArray l2) rads h = (Raise ValueError, h) /\
  harden NWTG MSOL dvdt_to_dadt self sets (NdArray l1) (NdArray l2) rads dens_gas
    dens_stars dens_dm vdisp rads_hard mass_stars rads_sg h
  = (Raise ValueError, h).
Proof.
  intros Hne H1 H2.
  assert (V : _vel_circ NWTG (NdArray l1) (NdArray l2) rads h = (Raise ValueError, h)).
  { unfold _vel_circ, bind, py_add. now rewrite ufunc2_mismatch. }
  split; [exact V|].
  unfold harden, harden_mass_obj.
  destruct (DF_WHICH_BH self =? 1)%Z.
  { unfold bind at 1. unfold ret at 1. unfold bind at 1. now rewrite V. }
  destruct (DF_WHICH_BH self =? 2)%Z.
  { unfold bind at 1. unfold ret at 1. unfold bind at 1. now rewrite V. }
  destruct (DF_WHICH_BH self =? 0)%Z.
  - unfold bind at 1. unfold py_add. now rewrite ufunc2_mismatch.
  - reflexivity.
Qed.

(** X2.  A primary mass of zero next to scalar arguments.  When both
    masses are Python floats the quotient [m2 / m1] is Python's and
    [_vel_circ] raises [ZeroDivisionError]; when one of them is a NumPy
    scalar the quotient is NumPy's and the function returns the NumPy
    scalar of its formula.  The heap is untouched either way. *)
Theorem vel_circ_zero_primary (m1 m2 sep : value F) (h : heap F) :
  is_arr m1 = false -> is_arr m2 = false -> is_arr sep = false ->
  is_zero (elt h m1 0) = true ->
  _vel_circ NWTG m1 m2 sep h
  = if is_py m1 && is_py m2
    then (Raise ZeroDivisionError, h)
    else (Ok (NpFloat (vel_circ_elt NWTG (elt h m1 0) (elt h m2 0) (elt h sep 0))), h).
Proof.
  intros A1 A2 As Hz.
  destruct m1 as [x1|x1|l1]; try discriminate;
    destruct m2 as [x2|x2|l2]; try discriminate;
    destruct sep as [s|s|ls]; try discriminate;
    simpl in Hz; unfold _vel_circ, bind; simpl; rewrite ?Hz; reflexivity.
Qed.

(** [m] raises [e] from [h], and [R] holds of the heap it leaves. *)
Definition raises {A} (m : Mon F A) (h : heap F) (e : exn) (R : heap F -> Prop)
  : Prop :=
  exists h', m h = (Raise e, h') /\ R h'.

Lemma raises_bind {A B} (m : Mon F A) (k : A -> Mon F B) h
  (Q : A -> heap F -> Prop) e (R : heap F -> Prop) :
  runs m h Q -> (forall a h', Q a h' -> raises (k a) h' e R) ->
  raises (bind m k) h e R.
Proof.
  intros (a & h' & E & HQ) K.
  destruct (K a h' HQ) as (h'' & E' & HR).
  exists h''. unfold bind. rewrite E. auto.
Qed.

Ltac fail_step Base lem :=
  eapply raises_bind;
  [ match goal with
    | H : holds ?n _ _ _ |- _ => eapply lem with (n := n)
    end; first [ solve_holds | flags | div_side ]
  | let v := fresh "v" in
    let h' := fresh "h" in
    let X := fresh "X" in
    let Fr := fresh "Fr" in
    let Hv := fresh "Hv" in
    let Ia := fresh "Ia" in
    let Ip := fresh "Ip" in
    intros v h' (X & Fr & Hv & Ia & Ip); advance Base X ].

(** X12.  Line 146 under a scalar mask that is false.  When the radii and
    the three masses are scalars, a density, velocity, dispersion or
    Coulomb logarithm is an array that is not empty, and [rads] is not
    below [rads_hard], [_dvdt_attenuated] computes the full drag and the
    factor and then raises [ValueError]: [dvdt_atten[False]] has the shape
    (0,n), [lcAtten[False]] the shape (0,), and the division in place
    does not broadcast them.  The arrays of the caller are as they
    were. *)
Theorem scalar_mask_outside_hard_regime_raises n (h : heap F)
  (mass_obj rads dens vel_obj vdisp coul rads_hard mstar mass_stars : value F) :
  shaped n h mass_obj -> shaped n h rads -> shaped n h dens ->
  shaped n h vel_obj -> shaped n h vdisp -> shaped n h coul ->
  shaped n h rads_hard -> shaped n h mstar -> shaped n h mass_stars ->
  is_py mass_stars = false ->
  is_arr dens || is_arr vel_obj || is_arr vdisp || is_arr coul = true ->
  is_arr rads || is_arr rads_hard || is_arr mass_obj || is_arr mstar
  || is_arr mass_stars = false ->
  0 < n ->
  fltb (elt h rads 0) (elt h rads_hard 0) = false ->
  exists h',
    _dvdt_attenuated NWTG mass_obj rads dens vel_obj vdisp coul
      rads_hard mstar mass_stars h = (Raise ValueError, h') /\
    extends h h'.
Proof.
  intros Sm Sr Sd Sv Ss Sc Sh Sms Sst Hpy Harr Hsc Hn Hge.
  apply orb_false_elim in Hsc. destruct Hsc as [Hsc Ast].
  apply orb_false_elim in Hsc. destruct Hsc as [Hsc Ams].
  apply orb_false_elim in Hsc. destruct Hsc as [Hsc Amo].
  apply orb_false_elim in Hsc. destruct Hsc as [Ar Ah].
  pose proof (holds_self Sm) as Hm. pose proof (holds_self Sr) as Hr.
  pose proof (holds_self Sd) as Hd. pose proof (holds_self Sv) as Hvel.
  pose proof (holds_self Ss) as Hs. pose proof (holds_self Sc) as Hc.
  pose proof (holds_self Sh) as Hh. pose proof (holds_self Sms) as Hms.
  pose proof (holds_self Sst) as Hst.
  change (raises (_dvdt_attenuated NWTG mass_obj rads dens vel_obj vdisp coul
                    rads_hard mstar mass_stars) h ValueError (extends h)).
  unfold _dvdt_attenuated.
  pose proof (extends_refl h) as Base.
  fail_step Base dvdt_full_spec.
  fail_step Base py_div_spec.
  fail_step Base ufunc1_spec.
  fail_step Base py_mul_spec.
  fail_step Base py_div_spec.
  fail_step Base py_div_spec.
  fail_step Base ufunc1_spec.
  fail_step Base py_mul_spec.
  fail_step Base ufunc2_spec.
  destruct (py_lt_spec Hr Hh) as (m & Em & [_ Vm] & Im).
  rewrite Ar, Ah in Im. destruct m as [c|bs]; [|discriminate].
  specialize (Vm 0 Hn). simpl in Vm. rewrite Hge in Vm. subst c.
  assert (Iv : is_arr v = true) by (rewrite Ia, Amo; exact Harr).
  assert (I7 : is_arr v7 = false).
  { rewrite Ia7, Ia3, Ia2, Ia1, Ia0, Ia6, Ia5, Ia4, Ia0.
    now rewrite Ar, Ah, Amo, Ams, Ast. }
  destruct v as [x|x|l]; try discriminate.
  destruct v7 as [y|y|l7]; try discriminate.
  destruct Hv as [[Hl Hlen] _].
  exists h8. split; [|exact Base].
  unfold bind. rewrite Em. unfold idiv_items.
  destruct (load h8 l) as [|x xs]; [simpl in Hlen; lia|reflexivity].
Qed.

End ShapeErrors.

(** ** New arrays only *)

Section Growth.

Context {F : Type} {NL : NumLib F}.

Local Abbreviation heap := (heap F).
Local Abbreviation M := (Mon F).

Variable NWTG : F.

(** [m] never removes an array from the heap. *)
Definition grows {A} (m : M A) : Prop :=
  forall h, length h <= length (snd (m h)).

Lemma grows_keeps {A} (m : M A) : keeps m -> grows m.
Proof. intros K h. apply (K h). Qed.

Lemma grows_bind {A B} (m : M A) (k : A -> M B) :
  grows m -> (forall a, grows (k a)) -> grows (bind m k).
Proof.
  intros Hm Hk h. unfold bind. specialize (Hm h).
  destruct (m h) as [[a|e] h']; simpl in *; [|assumption].
  specialize (Hk a h'). lia.
Qed.

Lemma grows_idiv_items a inds b : grows (idiv_items a inds b).
Proof.
  intros h. destruct a as [x|x|l]; simpl; try apply le_n.
  - destruct inds, b; apply le_n.
  - destruct inds as [c|bs].
    + destruct b as [y|y|l2]; simpl; try apply le_n.
      { destruct c; [|destruct (load h l)];
          unfold write; simpl; rewrite ?length_store; apply le_n. }
      destruct (load h l2) as [|y [|y' ys]];
        try (now rewrite length_store);
        match goal with
        | |- context [if ?c then _ else _] => destruct c
        end; simpl; rewrite ?length_store; apply le_n.
    + destruct (length bs =? length (load h l)); [|apply le_n].
      destruct b as [y|y|l2]; simpl; try apply le_n.
      destruct (length bs =? length (load h l2)); simpl;
        rewrite ?length_store; apply le_n.
Qed.

(** Whenever [m] returns, it returns [v]. *)
Definition returns {A} (v : A) (m : M A) : Prop :=
  forall h r, fst (m h) = Ok r -> r = v.

Lemma returns_ret {A} (v : A) : returns v (ret v : M A).
Proof. intros h r E. now injection E. Qed.

Lemma returns_bind {A B} (v : B) (m : M A) (k : A -> M B) :
  (forall a, returns v (k a)) -> returns v (bind m k).
Proof.
  intros Hk h r. unfold bind.
  destruct (m h) as [[a|e] h']; simpl; [apply Hk|discriminate].
Qed.

(** A new array that the rest of the computation updates in place and
    returns is still a new array at the end. *)
Lemma allocates_then_update (m : M (value F)) (k : value F -> M (value F)) :
  allocates m ->
  (forall b v, above b v -> frames b (k v)) ->
  (forall v, grows (k v)) -> (forall v, returns v (k v)) ->
  allocates (bind m k).
Proof.
  intros Hm Hf Hg Hr h. unfold bind.
  destruct (Hm h) as [[L E] Fr].
  destruct (m h) as [[v|e] h1]; simpl in *.
  - specialize (Fr v eq_refl).
    assert (Av : above (length h) v).
    { destruct v; simpl in *; auto. lia. }
    destruct (Hf (length h) v Av h1 L) as [L2 E2].
    specialize (Hg v h1). specialize (Hr v h1).
    split.
    + split; [assumption|]. intros l Hl. rewrite E2 by assumption. now apply E.
    + intros v' Ev. apply Hr in Ev. subst v'.
      destruct v; simpl in *; auto. lia.
  - split; [|intros v' Ev; discriminate]. split; assumption.
Qed.

Ltac grows_chain :=
  repeat (apply grows_bind;
          [ apply grows_keeps;
            first [ apply allocates_keeps; alloc_op
                  | apply keeps_py_lt | apply keeps_py_and ]
          | intro ]).

Lemma dvdt_attenuated_allocates
  mass_obj rads dens vel_obj vdisp coul rads_hard mstar mass_stars :
  allocates (_dvdt_attenuated NWTG mass_obj rads dens vel_obj vdisp coul
               rads_hard mstar mass_stars).
Proof.
  unfold _dvdt_attenuated.
  apply allocates_then_update; [apply dvdt_full_allocates| | |].
  - intros b v Av. frames_chain.
    apply frames_bind; [now apply frames_idiv_items|intros _].
    apply frames_keeps, keeps_ret.
  - intros v. grows_chain.
    apply grows_bind; [apply grows_idiv_items|intros _].
    apply grows_keeps, keeps_ret.
  - intros v. repeat (apply returns_bind; intro). apply returns_ret.
Qed.

(** X3.  From any heap and with any arguments, each of [_vel_circ],
    [_dvdt_full] and [_dvdt_attenuated] leaves every array it finds as it
    was, and what it returns is a scalar or an array that did not exist
    before the call, never one of its arguments.  For [_dvdt_attenuated]
    this holds although line 146 divides in place: the array it divides
    is the one [_dvdt_full] allocated on line 136. *)
Theorem helpers_return_new_arrays
  (m1 m2 sep mass_obj rads dens vel_obj vdisp coul rads_hard mstar mass_stars : value F)
  (h : heap) :
  let vel := _vel_circ NWTG m1 m2 sep h in
  let full := _dvdt_full NWTG mass_obj rads dens vel_obj vdisp coul h in
  let atten := _dvdt_attenuated NWTG mass_obj rads dens vel_obj vdisp coul
                 rads_hard mstar mass_stars h in
  (extends h (snd vel) /\ forall v, fst vel = Ok v -> fresh h (snd vel) v) /\
  (extends h (snd full) /\ forall v, fst full = Ok v -> fresh h (snd full) v) /\
  (extends h (snd atten) /\ forall v, fst atten = Ok v -> fresh h (snd atten) v).
Proof.
  intros vel full atten. split; [|split].
  - apply vel_circ_allocates.
  - apply dvdt_full_allocates.
  - apply dvdt_attenuated_allocates.
Qed.

End Growth.

(** ** The formulas over the real numbers *)

Section MoreRealProperties.

Local Open Scope R_scope.

Lemma gauss_le_1 t : gauss t <= 1.
Proof.
  unfold gauss. rewrite <- exp_0.
  destruct (Req_dec t 0) as [->|Ht].
  - right. f_equal. ring.
  - left. apply exp_increasing. nra.
Qed.

(** The integral is at most the rectangle under the value at 0. *)
Lemma gauss_integral_le x :
  0 <= x -> RiemannInt (gauss_integrable 0 x) <= x.
Proof.
  intros Hx.
  apply Rle_trans with (RiemannInt (RiemannInt_P14 0 x 1)).
  - apply RiemannInt_P19; [assumption|].
    intros t _. unfold fct_cte. apply gauss_le_1.
  - rewrite RiemannInt_P15. lra.
Qed.

(** The error-function term is of third order in the velocity ratio. *)
Lemma erf_term_le_cube x :
  0 < x -> erf x - (2 * x / sqrt PI) * exp (- (x * x)) <= 2 / sqrt PI * (x * x * x).
Proof.
  intros Hx. unfold erf. fold (gauss x).
  pose proof (gauss_integral_le (Rlt_le _ _ Hx)) as I.
  pose proof sqrt_PI_pos as S.
  pose proof (exp_ineq1_le (- (x * x))) as E. fold (gauss x) in E.
  replace (2 / sqrt PI * RiemannInt (gauss_integrable 0 x)
           - 2 * x / sqrt PI * gauss x)
    with (2 / sqrt PI * (RiemannInt (gauss_integrable 0 x) - x * gauss x))
    by (field; lra).
  apply Rmult_le_compat_l.
  - left. apply Rdiv_lt_0_compat; lra.
  - nra.
Qed.

Lemma dvdt_full_nonpositive G m d v s c :
  0 <= m -> 0 <= d -> 0 <= c -> v <> 0 ->
  dvdt_full_elt G m d v s c <= 0.
Proof.
  intros Hm Hd Hc Hv. unfold dvdt_full_elt. cbn.
  set (x := v / (s * sqrt 2)).
  pose proof (Rabs_pos (erf x - 2 * x / sqrt PI * exp (- (x * x)))) as He.
  set (e := Rabs (erf x - 2 * x / sqrt PI * exp (- (x * x)))) in *. clearbody e.
  assert (Hv2 : 0 < v * v) by nra.
  assert (Hp : 0 <= m * d / (v * v)).
  { apply Rmult_le_pos; [nra|]. left. now apply Rinv_0_lt_compat. }
  pose proof PI_RGT_0 as Hpi.
  assert (HG2 : 0 <= G * G) by nra.
  assert (H1 : 0 <= 4 * PI * (G * G)) by nra.
  assert (H2 : 0 <= 4 * PI * (G * G) * (m * d / (v * v))) by nra.
  assert (H3 : 0 <= 4 * PI * (G * G) * (m * d / (v * v)) * e) by nra.
  assert (H4 : 0 <= 4 * PI * (G * G) * (m * d / (v * v)) * e * c) by nra.
  lra.
Qed.

Lemma sqrt2_pos : 0 < sqrt 2.
Proof. apply sqrt_lt_R0. lra. Qed.

(** The bound of the cut-off: the drag is at most a multiple of
    [vel_obj / vdisp^3]. *)
Lemma dvdt_full_cutoff_bound G m d v s c :
  0 < m -> 0 < d -> 0 < c -> 0 < v -> 0 < s ->
  Rabs (dvdt_full_elt G m d v s c)
  <= 2 * sqrt 2 * sqrt PI * (G * G) * m * d * c * (v / (s * s * s)).
Proof.
  intros Hm Hd Hc Hv Hs.
  destruct (Req_dec G 0) as [->|HG].
  { unfold dvdt_full_elt. cbn. rewrite !Rmult_0_r, !Rmult_0_l, Rabs_R0. lra. }
  pose proof (dvdt_full_negative HG Hm Hd Hv Hs Hc) as N.
  rewrite Rabs_left by assumption.
  unfold dvdt_full_elt. cbn.
  set (x := v / (s * sqrt 2)).
  pose proof sqrt2_pos as Ha. pose proof sqrt_PI_pos as Hp.
  assert (Ha2 : sqrt 2 * sqrt 2 = 2) by (apply sqrt_sqrt; lra).
  assert (Hp2 : sqrt PI * sqrt PI = PI) by (apply sqrt_sqrt; left; apply PI_RGT_0).
  assert (Hx : 0 < x).
  { apply Rdiv_lt_0_compat; [assumption|]. now apply Rmult_lt_0_compat. }
  pose proof (erf_term_pos Hx) as He.
  pose proof (erf_term_le_cube Hx) as Hc3.
  rewrite (Rabs_right _ (Rle_ge _ _ (Rlt_le _ _ He))).
  set (e := erf x - 2 * x / sqrt PI * exp (- (x * x))) in *. clearbody e.
  set (p := sqrt PI) in *. set (a := sqrt 2) in *. clearbody p a.
  rewrite <- Hp2.
  assert (K : 0 < 4 * (p * p) * (G * G) * (m * d / (v * v)) * c).
  { assert (HG2 : 0 < G * G) by nra.
    assert (Hmd : 0 < m * d / (v * v)) by (apply Rdiv_lt_0_compat; nra).
    assert (Hpp : 0 < 4 * (p * p)) by nra.
    set (q := m * d / (v * v)) in *. clearbody q.
    apply Rmult_lt_0_compat; [|assumption].
    apply Rmult_lt_0_compat; [|assumption].
    apply Rmult_lt_0_compat; assumption. }
  apply Rle_trans
    with (4 * (p * p) * (G * G) * (m * d / (v * v)) * c * (2 / p * (x * x * x))).
  - apply Rle_trans with (4 * (p * p) * (G * G) * (m * d / (v * v)) * c * e); [lra|].
    apply Rmult_le_compat_l; lra.
  - right. unfold x.
    replace (2 * a * p * (G * G) * m * d * c * (v / (s * s * s)))
      with ((a * a) * a * p * (G * G) * m * d * c * (v / (s * s * s)))
      by (rewrite Ha2; ring).
    replace 4 with ((a * a) * (a * a)) by (rewrite Ha2; ring).
    replace 2 with (a * a) by exact Ha2.
    field. repeat split; lra.
Qed.

(** X4.  [_dvdt_full] returns a deceleration.  For scalars and arrays of
    one length with non-negative object mass, density and Coulomb
    logarithm and velocities other than zero, no element of the result is
    positive; with all of them positive, and a gravitational constant
    other than zero, every element is negative. *)
Theorem dvdt_full_decelerates (G : R) n (h : heap R)
  (mass_obj rads dens vel_obj vdisp coul : value R) :
  shaped n h mass_obj -> shaped n h dens -> shaped n h vel_obj ->
  shaped n h vdisp -> shaped n h coul ->
  (forall i, (i < n)%nat ->
     0 <= elt h mass_obj i /\ 0 <= elt h dens i /\ 0 <= elt h coul i /\
     elt h vel_obj i <> 0 /\ elt h vdisp i <> 0) ->
  exists v h',
    _dvdt_full G mass_obj rads dens vel_obj vdisp coul h = (Ok v, h') /\
    forall i, (i < n)%nat ->
      elt h' v i <= 0 /\
      (G <> 0 -> 0 < elt h mass_obj i -> 0 < elt h dens i -> 0 < elt h coul i ->
       0 < elt h vel_obj i -> 0 < elt h vdisp i -> elt h' v i < 0).
Proof.
  intros Sm Sd Sv Ss Sc Hpos.
  destruct (dvdt_full_spec G rads (holds_self Sm) (holds_self Sd)
              (holds_self Sv) (holds_self Ss) (holds_self Sc))
    as (v & h' & E & _ & _ & [_ V] & _).
  exists v, h'. split; [exact E|]. intros i Hi.
  rewrite V by assumption.
  destruct (Hpos i Hi) as (Hm & Hd & Hc & Hv & _). split.
  - now apply dvdt_full_nonpositive.
  - intros HG Hm' Hd' Hc' Hv' Hs'. now apply dvdt_full_negative.
Qed.

(** X5.  The cut-off of [_dvdt_full] for a slow object, the one its
    docstring announces for [vel_obj << vdisp].  For positive arguments
    the magnitude of every element is at most
    [2 sqrt(2) sqrt(pi) G^2 mass_obj dens coul vel_obj / vdisp^3]: at a
    given dispersion the drag vanishes with the velocity, although the
    formula divides by [vel_obj^2]. *)
Theorem dvdt_full_cut_off (G : R) n (h : heap R)
  (mass_obj rads dens vel_obj vdisp coul : value R) :
  shaped n h mass_obj -> shaped n h dens -> shaped n h vel_obj ->
  shaped n h vdisp -> shaped n h coul ->
  (forall i, (i < n)%nat ->
     0 < elt h mass_obj i /\ 0 < elt h dens i /\ 0 < elt h coul i /\
     0 < elt h vel_obj i /\ 0 < elt h vdisp i) ->
  exists v h',
    _dvdt_full G mass_obj rads dens vel_obj vdisp coul h = (Ok v, h') /\
    forall i, (i < n)%nat ->
      Rabs (elt h' v i)
      <= 2 * sqrt 2 * sqrt PI * (G * G)
         * elt h mass_obj i * elt h dens i * elt h coul i
         * (elt h vel_obj i / (elt h vdisp i * elt h vdisp i * elt h vdisp i)).
Proof.
  intros Sm Sd Sv Ss Sc Hpos.
  destruct (dvdt_full_spec G rads (holds_self Sm) (holds_self Sd)
              (holds_self Sv) (holds_self Ss) (holds_self Sc))
    as (v & h' & E & _ & _ & [_ V] & _).
  exists v, h'. split; [exact E|]. intros i Hi.
  rewrite V by assumption.
  destruct (Hpos i Hi) as (Hm & Hd & Hc & Hv & Hs).
  now apply dvdt_full_cutoff_bound.
Qed.




Lemma v_circ_share G m1 m2 r :
  0 < m1 -> 0 < m2 ->
  v_circ G m1 m2 r = sqrt (G * (m1 + m2) / r) * (m1 / (m1 + m2)).
Proof.
  intros H1 H2. unfold v_circ. field. split; lra.
Qed.

Lemma positive_elt n (h : heap R) v i :
  shaped n h v -> positive h v -> (i < n)%nat -> 0 < elt h v i.
Proof.
  destruct v as [x|x|l]; simpl; auto.
  intros [_ Hn] Hp Hi. apply Hp. apply nth_In. lia.
Qed.

(** X7.  What [_vel_circ] returns is the velocity of the secondary about
    the centre of mass.  For positive masses and separations each element
    is the relative circular velocity [sqrt(G (m1 + m2) / sep)] times
    [m1 / (m1 + m2)], so it lies strictly between 0 and that velocity; and
    with the masses exchanged the function returns the velocity of the
    primary: the two momenta are equal, and the two velocities add up to
    the relative one. *)
Theorem vel_circ_is_secondary_velocity (G : R) n (h : heap R)
  (m1 m2 sep : value R) :
  0 < G ->
  shaped n h m1 -> shaped n h m2 -> shaped n h sep ->
  positive h m1 -> positive h m2 -> positive h sep ->
  exists v2 h2 v1 h1,
    _vel_circ G m1 m2 sep h = (Ok v2, h2) /\
    _vel_circ G m2 m1 sep h = (Ok v1, h1) /\
    forall i, (i < n)%nat ->
      let vrel := sqrt (G * (elt h m1 i + elt h m2 i) / elt h sep i) in
      elt h2 v2 i = vrel * (elt h m1 i / (elt h m1 i + elt h m2 i)) /\
      0 < elt h2 v2 i < vrel /\
      elt h m2 i * elt h2 v2 i = elt h m1 i * elt h1 v1 i /\
      elt h2 v2 i + elt h1 v1 i = vrel.
Proof.
  intros HG S1 S2 Ss P1 P2 Ps.
  destruct (vel_circ_spec G (holds_self S1) (holds_self S2) (holds_self Ss))
    as (v2 & h2 & E2 & _ & _ & [_ V2] & _).
  { intros _. now apply positive_nonzero_py with (h := h). }
  { intros _. now apply positive_nonzero_py with (h := h). }
  destruct (vel_circ_spec G (holds_self S2) (holds_self S1) (holds_self Ss))
    as (v1 & h1 & E1 & _ & _ & [_ V1] & _).
  { intros _. now apply positive_nonzero_py with (h := h). }
  { intros _. now apply positive_nonzero_py with (h := h). }
  exists v2, h2, v1, h1. split; [exact E2|]. split; [exact E1|].
  intros i Hi vrel. rewrite V2, V1 by assumption.
  pose proof (@positive_elt n h m1 i S1 P1 Hi) as H1.
  pose proof (@positive_elt n h m2 i S2 P2 Hi) as H2.
  pose proof (@positive_elt n h sep i Ss Ps Hi) as Hs.
  rewrite !v_circ_elt, !v_circ_share by assumption.
  replace (elt h m2 i + elt h m1 i) with (elt h m1 i + elt h m2 i) by ring.
  fold vrel.
  assert (Hrel : 0 < vrel).
  { apply sqrt_lt_R0. apply Rdiv_lt_0_compat; nra. }
  set (a := elt h m1 i) in *. set (b := elt h m2 i) in *.
  clearbody vrel a b.
  assert (Ha : 0 < a / (a + b) < 1).
  { split.
    - apply Rdiv_lt_0_compat; lra.
    - apply (Rmult_lt_reg_r (a + b)); [lra|].
      unfold Rdiv. rewrite Rmult_assoc, Rinv_l by lra. lra. }
  split; [reflexivity|]. split; [nra|]. split; field; lra.
Qed.



(** X9.  The cut of lines 85-89 as the code performs it.  For scalars and
    arrays of one length, the velocities in an array when both flags are
    set, the gas deceleration is zero exactly at the elements with
    [rads < rads_sg] and [rads_sg > 0] under both flags; at every other
    element, and everywhere when a flag is off, it is the full formula on
    the gas density with the dispersion scaled by [GAS_VEL_SOFT]. *)
Theorem gas_cut_inside_self_gravity_radius (G : R) n (h : heap R)
  (self : config R) (sets : settings)
  (mass_obj rads dens_gas vcirc vdisp rads_sg coulomb : value R) :
  shaped n h mass_obj -> shaped n h rads -> shaped n h dens_gas ->
  shaped n h vcirc -> shaped n h vdisp -> shaped n h rads_sg ->
  shaped n h coulomb ->
  (VISC_DISK_FLAG sets && SELF_GRAV_RAD sets = true -> is_arr vcirc = true) ->
  exists v h',
    harden_gas G self sets mass_obj rads dens_gas vcirc vdisp rads_sg coulomb h
    = (Ok v, h') /\
    extends h h' /\ shaped n h' v /\
    forall i, (i < n)%nat ->
      let full :=
        dvdt_full_elt G (elt h mass_obj i) (elt h dens_gas i) (elt h vcirc i)
          (elt h vdisp i * GAS_VEL_SOFT self) (elt h coulomb i) in
      (VISC_DISK_FLAG sets = true -> SELF_GRAV_RAD sets = true ->
       elt h rads i < elt h rads_sg i -> 0 < elt h rads_sg i ->
       elt h' v i = 0) /\
      (VISC_DISK_FLAG sets = false \/ SELF_GRAV_RAD sets = false \/
       elt h rads_sg i <= elt h rads i \/ elt h rads_sg i <= 0 ->
       elt h' v i = full).
Proof.
  intros Sm Sr Sd Sv Ss Sg Sc Harr.
  destruct (harden_gas_spec G self sets (holds_self Sm) (holds_self Sr)
              (holds_self Sd) (holds_self Sv) (holds_self Ss) (holds_self Sg)
              (holds_self Sc))
    as (v & h' & E & X & _ & [S V] & _).
  { intros Efl. rewrite (Harr Efl). now rewrite !orb_true_r. }
  exists v, h'. split; [exact E|]. split; [exact X|]. split; [exact S|].
  intros i Hi full. rewrite V by assumption. unfold harden_gas_elt.
  fold full.
  destruct (gas_cut sets (elt h rads i) (elt h rads_sg i)) eqn:Ecut.
  - apply gas_cut_iff in Ecut. destruct Ecut as (Ev & Es & Hlt & Hpos).
    split; [reflexivity|].
    intros [Hf|[Hf|[Hge|Hle]]]; try congruence; lra.
  - split; [|reflexivity].
    intros Ev Es Hlt Hpos.
    assert (C : gas_cut sets (elt h rads i) (elt h rads_sg i) = true)
      by (apply gas_cut_iff; auto).
    congruence.
Qed.

End MoreRealProperties.

(** ** The further properties at concrete arguments *)

Section MoreExamples.

Local Open Scope R_scope.

(** Two mass arrays that do not broadcast: two elements and three. *)
Definition ragged_cells : heap R := [[1; 2]; [1; 2; 3]].

(** [mismatched_masses_raise] on masses of two and of three elements. *)
Lemma mismatched_masses_raise_witness :
  _vel_circ 1 (NdArray 0) (NdArray 1) (NdArray 0) ragged_cells
  = (Raise ValueError, ragged_cells) /\
  harden 1 1 sample_dvdt_to_dadt Dynamical_Friction disk_on
    (NdArray 0) (NdArray 1) (NdArray 0) (NdArray 0) (NdArray 0) (NdArray 0)
    (NdArray 0) (NdArray 0) (NdArray 0) (NdArray 0) ragged_cells
  = (Raise ValueError, ragged_cells).
Proof.
  apply (@mismatched_masses_raise R RealLib 1 1 sample_dvdt_to_dadt
           Dynamical_Friction disk_on 0%nat 1%nat
           (NdArray 0) (NdArray 0) (NdArray 0) (NdArray 0) (NdArray 0)
           (NdArray 0) (NdArray 0) (NdArray 0) ragged_cells);
    unfold load; simpl; lia.
Defined.

(** [vel_circ_zero_primary] on the Python floats [0.0], [1.0], [1.0]. *)
Lemma vel_circ_zero_primary_witness :
  _vel_circ (Sym "G") (PyFloat (Lit 0)) (PyFloat (Lit 1)) (PyFloat (Lit 1)) []
  = (Raise ZeroDivisionError, []).
Proof.
  apply (@vel_circ_zero_primary term SymLib (Sym "G")
           (PyFloat (Lit 0)) (PyFloat (Lit 1)) (PyFloat (Lit 1)) []);
    reflexivity.
Defined.

(** [scalar_mask_outside_hard_regime_raises] for a separation of 2 and a
    hardening radius of 1, both NumPy scalars, next to arrays of one
    element. *)
Lemma scalar_mask_outside_hard_regime_raises_witness :
  exists h',
    _dvdt_attenuated 1 (PyFloat 1) (NpFloat 2) (NdArray 0) (NdArray 0) (NdArray 0)
      (PyFloat 15) (NpFloat 1) (PyFloat 1) (NpFloat 1) two_cells
    = (Raise ValueError, h') /\
    extends two_cells h'.
Proof.
  apply (@scalar_mask_outside_hard_regime_raises R RealLib 1 1%nat two_cells
           (PyFloat 1) (NpFloat 2) (NdArray 0) (NdArray 0) (NdArray 0)
           (PyFloat 15) (NpFloat 1) (PyFloat 1) (NpFloat 1));
    try exact I; try reflexivity; try (split; [simpl; lia | reflexivity]);
    try lia.
  simpl. apply Rltb_false. lra.
Defined.

Lemma two_cells_elt l i :
  (l < 2)%nat -> (i < 1)%nat -> 0 < elt two_cells (NdArray l) i.
Proof.
  intros Hl Hi. destruct i as [|i]; [|lia].
  destruct l as [|[|l]]; [| |lia]; unfold elt, load; simpl; lra.
Qed.

(** [dvdt_full_decelerates] on arrays of one element. *)
Lemma dvdt_full_decelerates_witness :
  exists v h',
    _dvdt_full 1 (NdArray 0) (NdArray 1) (NdArray 0) (NdArray 1) (NdArray 0)
      (PyFloat 15) two_cells = (Ok v, h') /\
    elt h' v 0 < 0.
Proof.
  destruct (@dvdt_full_decelerates 1 1%nat two_cells (NdArray 0) (NdArray 1)
              (NdArray 0) (NdArray 1) (NdArray 0) (PyFloat 15))
    as (v & h' & E & V);
    try exact I; try (split; [simpl; lia | reflexivity]).
  - intros i Hi. destruct i as [|i]; [|lia].
    unfold elt, load; simpl. repeat split; lra.
  - exists v, h'. split; [exact E|].
    apply (V 0%nat); try lia; try lra; unfold elt, load; simpl; lra.
Defined.

(** [dvdt_full_cut_off] at a velocity of 1 in a dispersion of 2. *)
Lemma dvdt_full_cut_off_witness :
  exists v h',
    _dvdt_full 1 (NdArray 0) (NdArray 1) (NdArray 0) (NdArray 0) (NdArray 1)
      (PyFloat 15) two_cells = (Ok v, h') /\
    Rabs (elt h' v 0) <= 2 * sqrt 2 * sqrt PI * (1 * 1) * 1 * 1 * 15 * (1 / (2 * 2 * 2)).
Proof.
  destruct (@dvdt_full_cut_off 1 1%nat two_cells (NdArray 0) (NdArray 1)
              (NdArray 0) (NdArray 0) (NdArray 1) (PyFloat 15))
    as (v & h' & E & V);
    try exact I; try (split; [simpl; lia | reflexivity]).
  - intros i Hi. destruct i as [|i]; [|lia].
    unfold elt, load; simpl. repeat split; lra.
  - exists v, h'. split; [exact E|]. apply (V 0%nat). lia.
Defined.


(** [vel_circ_is_secondary_velocity] for the masses 1 and 2 at separation 1. *)
Lemma vel_circ_is_secondary_velocity_witness :
  exists v2 h2 v1 h1,
    _vel_circ 1 (NdArray 0) (NdArray 1) (NdArray 0) two_cells = (Ok v2, h2) /\
    _vel_circ 1 (NdArray 1) (NdArray 0) (NdArray 0) two_cells = (Ok v1, h1) /\
    2 * elt h2 v2 0 = 1 * elt h1 v1 0 /\
    elt h2 v2 0 + elt h1 v1 0 = sqrt (1 * (1 + 2) / 1).
Proof.
  destruct (@vel_circ_is_secondary_velocity 1 1%nat two_cells
              (NdArray 0) (NdArray 1) (NdArray 0))
    as (v2 & h2 & v1 & h1 & E2 & E1 & V);
    try lra; try apply two_cells_positive; try (split; [simpl; lia | reflexivity]).
  exists v2, h2, v1, h1. split; [exact E2|]. split; [exact E1|].
  destruct (V 0%nat ltac:(lia)) as (_ & _ & Hm & Hs). split; assumption.
Defined.


(** [gas_cut_inside_self_gravity_radius] with both flags set: a separation
    of 1 inside a self-gravity radius of 2. *)
Lemma gas_cut_inside_self_gravity_radius_witness :
  exists v h',
    harden_gas 1 Dynamical_Friction disk_on
      (NdArray 0) (NdArray 0) (NdArray 0) (NdArray 0) (NdArray 0) (NdArray 1)
      (PyFloat 15) two_cells = (Ok v, h') /\
    elt h' v 0 = 0.
Proof.
  destruct (@gas_cut_inside_self_gravity_radius 1 1%nat two_cells
              Dynamical_Friction disk_on
              (NdArray 0) (NdArray 0) (NdArray 0) (NdArray 0) (NdArray 0) (NdArray 1)
              (PyFloat 15))
    as (v & h' & E & _ & _ & V);
    try exact I; try reflexivity; try (split; [simpl; lia | reflexivity]).
  exists v, h'. split; [exact E|].
  destruct (V 0%nat ltac:(lia)) as [Hcut _].
  apply Hcut; try reflexivity; unfold elt, load; simpl; lra.
Defined.

End MoreExamples.

(** ** The direction of the drag *)

Section Directions.

Local Open Scope R_scope.

(** The attenuation factor is positive for positive masses: it is at least
    [atten2]. *)
Lemma lc_atten_pos m r rh mstar ms :
  0 < m -> 0 < mstar -> 0 < ms -> 0 < lc_atten_elt m r rh mstar ms.
Proof.
  intros Hm Hmstar Hms. unfold lc_atten_elt. cbn.
  assert (Hq : 0 < m / ms) by (apply Rdiv_lt_0_compat; assumption).
  assert (HN : 0 < ms / mstar) by (apply Rdiv_lt_0_compat; assumption).
  assert (H2 : 0 < m / ms * (m / ms) * (ms / mstar)).
  { apply Rmult_lt_0_compat; [|assumption]. now apply Rmult_lt_0_compat. }
  pose proof (Rmax_r (ln (ms / mstar) * rh / r) (m / ms * (m / ms) * (ms / mstar))).
  lra.
Qed.

Lemma dvdt_attenuated_nonpositive G m r d v s c rh mstar ms :
  0 < m -> 0 <= d -> 0 <= c -> v <> 0 -> 0 < mstar -> 0 < ms ->
  dvdt_attenuated_elt G m r d v s c rh mstar ms <= 0.
Proof.
  intros Hm Hd Hc Hv Hmstar Hms. unfold dvdt_attenuated_elt.
  pose proof (@dvdt_full_nonpositive G m d v s c (Rlt_le _ _ Hm) Hd Hc Hv) as Hf.
  pose proof (@lc_atten_pos m r rh mstar ms Hm Hmstar Hms) as Ha.
  destruct (fltb r rh); [|assumption].
  cbn [fdiv RealLib].
  set (f := dvdt_full_elt G m d v s c) in *.
  set (a := lc_atten_elt m r rh mstar ms) in *. clearbody f a.
  assert (Hi : 0 < / a) by now apply Rinv_0_lt_compat.
  unfold Rdiv. nra.
Qed.


Lemma mass_obj_elt_pos (self : config R) a b :
  0 < a -> 0 < b -> 0 < mass_obj_elt self a b.
Proof.
  intros Ha Hb. unfold mass_obj_elt.
  destruct (DF_WHICH_BH self =? 1)%Z; [assumption|].
  destruct (DF_WHICH_BH self =? 2)%Z; [assumption|].
  cbn. lra.
Qed.

(** X11.  What [harden] hands to the conversion are decelerations.  With
    an accepted policy, a positive gravitational constant, softening
    factor and mass per star and a non-negative Coulomb logarithm, for
    positive masses, separations, dispersions and stellar masses and
    non-negative densities, the separations in an array: [harden] reaches
    [dvdt_to_dadt] with a positive circular velocity and with no positive
    element in the background deceleration or in the gas deceleration,
    under either setting of [DF_ATTENUATED] and of the disk flags. *)
Theorem harden_passes_decelerations (G Msun : R)
  (dvdt_to_dadt : value R -> value R -> value R -> Mon R (value R * value R))
  n (h : heap R) (self : config R) (sets : settings)
  (m1 m2 rads dens_gas dens_stars dens_dm vdisp rads_hard mass_stars rads_sg : value R) :
  shaped n h m1 -> shaped n h m2 -> shaped n h rads ->
  shaped n h dens_gas -> shaped n h dens_stars -> shaped n h dens_dm ->
  shaped n h vdisp -> shaped n h rads_hard -> shaped n h mass_stars ->
  shaped n h rads_sg ->
  policy_ok self = true ->
  is_arr rads = true -> is_py m1 && is_py m2 = false -> is_py mass_stars = false ->
  0 < G -> 0 <= COULOMB_LOGARITHM self -> 0 < GAS_VEL_SOFT self ->
  0 < MSTAR self * Msun ->
  (forall i, (i < n)%nat ->
     0 < elt h m1 i /\ 0 < elt h m2 i /\ 0 < elt h rads i /\
     0 <= elt h dens_gas i /\ 0 <= elt h dens_stars i /\ 0 <= elt h dens_dm i /\
     0 < elt h vdisp i /\ 0 < elt h mass_stars i) ->
  exists h1 vcirc dvdt dvdt_g,
    harden G Msun dvdt_to_dadt self sets m1 m2 rads dens_gas dens_stars dens_dm
      vdisp rads_hard mass_stars rads_sg h
    = ('(dadt, tau) <- dvdt_to_dadt rads vcirc dvdt ;;
       '(dadt_g, tau_g) <- dvdt_to_dadt rads vcirc dvdt_g ;;
       ret (dadt, dadt_g)) h1 /\
    forall i, (i < n)%nat ->
      0 < elt h1 vcirc i /\ elt h1 dvdt i <= 0 /\ elt h1 dvdt_g i <= 0.
Proof.
  intros S1 S2 Sr Sdg Sds Sdd Ss Sh Sst Sg Hok Harr Hpy Hst HG Hc Hsoft Hmstar Hpos.
  destruct (harden_runs G Msun dvdt_to_dadt self sets
              (holds_self S1) (holds_self S2) (holds_self Sr) (holds_self Sdg)
              (holds_self Sds) (holds_self Sdd) (holds_self Ss) (holds_self Sh)
              (holds_self Sst) (holds_self Sg) Hok (fun _ => Harr) Hpy
              (fun _ => Hst))
    as (h1 & vcirc & dvdt & dvdt_g & E & _ & (_ & [_ Vvc] & _) & (_ & [_ Vdv] & _)
        & (_ & [_ Vdg] & _)).
  exists h1, vcirc, dvdt, dvdt_g. split; [exact E|].
  intros i Hi. rewrite Vvc, Vdv, Vdg by assumption.
  destruct (Hpos i Hi) as (H1 & H2 & Hr & Hdg & Hds & Hdd & Hs & Hms).
  assert (Hv : 0 < vel_circ_elt G (elt h m1 i) (elt h m2 i) (elt h rads i))
    by (rewrite v_circ_elt; now apply v_circ_pos).
  pose proof (mass_obj_elt_pos self H1 H2) as Hm.
  set (vc := vel_circ_elt G (elt h m1 i) (elt h m2 i) (elt h rads i)) in *.
  set (mo := mass_obj_elt self (elt h m1 i) (elt h m2 i)) in *.
  clearbody vc mo.
  split; [assumption|]. split.
  - unfold harden_other_elt. cbn [fadd fmul RealLib].
    destruct (DF_ATTENUATED self).
    + apply dvdt_attenuated_nonpositive; lra.
    + apply dvdt_full_nonpositive; lra.
  - unfold harden_gas_elt.
    destruct (gas_cut sets (elt h rads i) (elt h rads_sg i)); [cbn; lra|].
    apply dvdt_full_nonpositive; lra.
Qed.

End Directions.

Section DirectionExamples.

Local Open Scope R_scope.


(** [harden_passes_decelerations] for the class attributes with both disk
    flags set. *)
Lemma harden_passes_decelerations_witness :
  exists h1 vcirc dvdt dvdt_g,
    harden 1 1 sample_dvdt_to_dadt Dynamical_Friction disk_on
      (NdArray 0) (NdArray 0) (NdArray 0) (NdArray 0) (NdArray 0) (NdArray 0)
      (NdArray 0) (NdArray 1) (NdArray 0) (NdArray 1) two_cells
    = harden_convert sample_dvdt_to_dadt (NdArray 0) vcirc dvdt dvdt_g h1 /\
    forall i, (i < 1)%nat ->
      0 < elt h1 vcirc i /\ elt h1 dvdt i <= 0 /\ elt h1 dvdt_g i <= 0.
Proof.
  apply (@harden_passes_decelerations 1 1 sample_dvdt_to_dadt 1%nat two_cells
           Dynamical_Friction disk_on
           (NdArray 0) (NdArray 0) (NdArray 0) (NdArray 0) (NdArray 0) (NdArray 0)
           (NdArray 0) (NdArray 1) (NdArray 0) (NdArray 1));
    try reflexivity; try (split; [simpl; lia | reflexivity]);
    try (simpl; lra).
  intros i Hi. destruct i as [|i]; [|lia]. unfold elt, load; simpl.
  repeat split; lra.
Defined.

End DirectionExamples.
